(** * TensorMap: a reference-counted handle on a shared table of tensors

    Shallow embedding of [tensorflow/core/kernels/tensor_map.h].

    A [TensorMap] object holds three header fields by value and a raw pointer
    [tensors_] to a heap-allocated, reference-counted [Tensors] block that
    owns the [absl::flat_hash_map<TensorKey, Tensor>].  The embedding keeps
    this split explicit: handles are records, storage blocks live in a heap
    indexed by addresses, and handle objects live in a store indexed by the
    name of the C++ object, so that [this == &rhs] is a comparison of names
    and aliasing through copied handles is visible. *)

From stdpp Require Import gmap list strings.
From Stdlib Require Import ZArith.

(** Addresses of [Tensors] blocks and names of [TensorMap] objects. *)
Abbreviation ptr := positive.
Abbreviation var := string.

(** ** The types the header is written against

    [TensorKey], [Tensor], [PartialTensorShape] and [DataType] are declared
    in headers that [tensor_map.h] includes; the container never looks
    inside them.  They are type parameters here, together with the few
    values of them the header builds. *)

Class TensorTypes (Key Tensor : Type) := {
  (** [Tensor()], the default-constructed tensor. *)
  Tensor_default : Tensor;
  (** [Tensor(0)], the value [Zeros] stores under every key. *)
  Tensor_zero : Tensor;
  (** [(Tensor)it->first], a key seen as a plain tensor. *)
  Tensor_of_key : Key → Tensor;
}.

Class HeaderTypes (Shape DType : Type) := {
  (** [PartialTensorShape()], what a default-constructed handle holds. *)
  Shape_default : Shape;
  (** what is left in a shape after [std::move] took its contents. *)
  Shape_moved_from : Shape → Shape;
  (** [element_dtype] has no initializer: a default-constructed handle holds
      whatever this is. *)
  DType_uninit : DType;
}.

Section Model.
Context {Key : Type} `{Countable Key} {Tensor : Type} `{!TensorTypes Key Tensor}.
Context {Shape DType : Type} `{!HeaderTypes Shape DType}.

(** ** absl::flat_hash_map, as far as the header uses it

    Keys are unique; iteration order is whatever [map_to_list] gives. *)

(** [m.try_emplace(k, v)]: insert when [k] is absent; [.second] tells whether
    the insertion happened. *)
Definition try_emplace (k : Key) (v : Tensor) (m : gmap Key Tensor)
  : gmap Key Tensor * bool :=
  match m !! k with
  | Some _ => (m, false)
  | None => (<[k := v]> m, true)
  end.

(** [m[k]]: value-initialize the slot when [k] is absent; the result is the
    table in which the slot [k] exists. *)
Definition subscript (k : Key) (m : gmap Key Tensor) : gmap Key Tensor :=
  match m !! k with
  | Some _ => m
  | None => <[k := Tensor_default]> m
  end.

(** [m.erase(k)]: the number of elements removed. *)
Definition map_erase (k : Key) (m : gmap Key Tensor) : gmap Key Tensor * nat :=
  match m !! k with
  | Some _ => (delete k m, 1%nat)
  | None => (m, 0%nat)
  end.

(** ** Storage blocks and the heap *)

(** [class Tensors : public core::RefCounted { flat_hash_map values_; }] *)
Record Tensors := mkTensors {
  ref_ : Z;
  values_ : gmap Key Tensor;
}.

(** The heap of [Tensors] blocks.  [next] is the first address never handed
    out; [freed] logs every [delete], most recent first. *)
Record Heap := mkHeap {
  cells : gmap ptr Tensors;
  next : ptr;
  freed : list ptr;
}.

Definition empty_heap : Heap := mkHeap ∅ 1%positive [].

Definition set_cell (p : ptr) (t : Tensors) (hp : Heap) : Heap :=
  mkHeap (<[p := t]> (cells hp)) (next hp) (freed hp).

(** Modelled from the spec: [core::RefCounted], the base class of [Tensors],
    which lib/core/refcount.h defines.  [new Tensors] creates an empty
    block with count 1 ("a freshly allocated, empty SharedStorage, refcount
    = 1") at an address never used before.  Calling [Ref], [Unref] or
    [RefCountIsOne] on a deleted block is undefined: [None]. *)
Definition new_Tensors (hp : Heap) : ptr * Heap :=
  (next hp,
   mkHeap (<[next hp := mkTensors 1 ∅]> (cells hp)) (Pos.succ (next hp)) (freed hp)).

(** Modelled from the spec: [RefCounted::Ref()], "refcount incremented by
    1". *)
Definition Ref (p : ptr) (hp : Heap) : option Heap :=
  t ← cells hp !! p;
  Some (set_cell p (mkTensors (ref_ t + 1)%Z (values_ t)) hp).

(** Modelled from the spec: [RefCounted::Unref()], "decrement, free if it
    reaches zero". *)
Definition Unref (p : ptr) (hp : Heap) : option Heap :=
  t ← cells hp !! p;
  if decide (ref_ t - 1 = 0)%Z
  then Some (mkHeap (delete p (cells hp)) (next hp) (p :: freed hp))
  else Some (set_cell p (mkTensors (ref_ t - 1)%Z (values_ t)) hp).

(** Modelled from the spec: [RefCounted::RefCountIsOne()], "refcount ==
    1". *)
Definition Tensors_RefCountIsOne (p : ptr) (hp : Heap) : option bool :=
  t ← cells hp !! p;
  Some (bool_decide (ref_ t = 1%Z)).

(** ** The handle *)

Record TensorMap := mkTensorMap {
  element_shape : Shape;
  element_dtype : DType;
  max_num_elements : Z;
  tensors_ : option ptr;   (* [None] is [nullptr] *)
}.

(** The three header fields of a handle. *)
Definition header (h : TensorMap) : Shape * DType * Z :=
  (element_shape h, element_dtype h, max_num_elements h).

(** The handle [this] with [max_num_elements = n]. *)
Definition with_max (n : Z) (this : TensorMap) : TensorMap :=
  mkTensorMap (element_shape this) (element_dtype this) n (tensors_ this).

(** [tensors_->values_]; dereferencing a null or dangling pointer is
    undefined. *)
Definition tensors (this : TensorMap) (hp : Heap) : option (gmap Key Tensor) :=
  p ← tensors_ this;
  t ← cells hp !! p;
  Some (values_ t).

(** Store a new table in the block [this] points to. *)
Definition set_tensors (this : TensorMap) (m : gmap Key Tensor) (hp : Heap)
  : option Heap :=
  p ← tensors_ this;
  t ← cells hp !! p;
  Some (set_cell p (mkTensors (ref_ t) m) hp).

(** [TensorMap() : tensors_(new Tensors) {}] *)
Definition TensorMap_new (hp : Heap) : TensorMap * Heap :=
  let '(p, hp') := new_Tensors hp in
  (mkTensorMap Shape_default DType_uninit (-1)%Z (Some p), hp').

(** [TensorMap(const TensorMap& other)] *)
Definition TensorMap_copy (other : TensorMap) (hp : Heap)
  : option (TensorMap * Heap) :=
  p ← tensors_ other;
  hp' ← Ref p hp;
  Some (mkTensorMap (element_shape other) (element_dtype other)
          (max_num_elements other) (Some p), hp').

(** [TensorMap(TensorMap&& rhs)]: the new handle and what is left in [rhs]. *)
Definition TensorMap_move (rhs : TensorMap) : TensorMap * TensorMap :=
  (mkTensorMap (element_shape rhs) (element_dtype rhs)
     (max_num_elements rhs) (tensors_ rhs),
   mkTensorMap (Shape_moved_from (element_shape rhs)) (element_dtype rhs)
     (max_num_elements rhs) None).

(** [operator=(const TensorMap& rhs)] past the [this == &rhs] test. *)
Definition copy_assign (this rhs : TensorMap) (hp : Heap)
  : option (TensorMap * Heap) :=
  q ← tensors_ this;
  hp1 ← Unref q hp;
  p ← tensors_ rhs;
  hp2 ← Ref p hp1;
  Some (mkTensorMap (element_shape rhs) (element_dtype rhs)
          (max_num_elements rhs) (Some p), hp2).

(** [operator=(TensorMap&& rhs)] past the [this == &rhs] test: the header is
    copied, the two pointers are swapped.  Returns [this] and [rhs]. *)
Definition move_assign (this rhs : TensorMap) : TensorMap * TensorMap :=
  (mkTensorMap (element_shape rhs) (element_dtype rhs)
     (max_num_elements rhs) (tensors_ rhs),
   mkTensorMap (element_shape rhs) (element_dtype rhs)
     (max_num_elements rhs) (tensors_ this)).

(** Modelled from the spec: [~TensorMap()], which the header declares and
    tensor_map.cc defines.  "Releases the
    SharedStorage reference (decrement; free entries and storage block only
    when count reaches zero)"; a moved-from handle references no storage and
    releases nothing. *)
Definition TensorMap_destroy (this : TensorMap) (hp : Heap) : option Heap :=
  match tensors_ this with
  | None => Some hp
  | Some p => Unref p hp
  end.

(** [RefCountIsOne()] *)
Definition RefCountIsOne (this : TensorMap) (hp : Heap) : option bool :=
  p ← tensors_ this;
  Tensors_RefCountIsOne p hp.

(** ** Table operations *)

(** [insert(key, value)] *)
Definition insert (this : TensorMap) (key : Key) (value : Tensor) (hp : Heap)
  : option (bool * Heap) :=
  m ← tensors this hp;
  let r := try_emplace key value m in
  hp' ← set_tensors this r.1 hp;
  Some (r.2, hp').

(** [find(key)]: [Some v] is an iterator on the entry, [None] is [end()]. *)
Definition find (this : TensorMap) (key : Key) (hp : Heap)
  : option (option Tensor) :=
  m ← tensors this hp;
  Some (m !! key).

(** A [Tensor&] into a table: the block and the key of the slot. *)
Definition slot : Type := ptr * Key.

Definition deref (s : slot) (hp : Heap) : option Tensor :=
  t ← cells hp !! s.1;
  values_ t !! s.2.

(** Assignment through a [Tensor&]. *)
Definition assign (s : slot) (v : Tensor) (hp : Heap) : option Heap :=
  t ← cells hp !! s.1;
  _ ← values_ t !! s.2;
  Some (set_cell s.1 (mkTensors (ref_ t) (<[s.2 := v]> (values_ t))) hp).

(** [lookup(key)]: [find(key)->second]; dereferencing [end()] is
    undefined. *)
Definition lookup (this : TensorMap) (key : Key) (hp : Heap) : option slot :=
  p ← tensors_ this;
  m ← tensors this hp;
  _ ← m !! key;
  Some (p, key).

(** [operator[](k)] *)
Definition op_subscript (this : TensorMap) (k : Key) (hp : Heap)
  : option (slot * Heap) :=
  p ← tensors_ this;
  m ← tensors this hp;
  hp' ← set_tensors this (subscript k m) hp;
  Some ((p, k), hp').

(** [replace(k, v)]: [tensors_->values_[k] = v; return true;] *)
Definition replace (this : TensorMap) (k : Key) (v : Tensor) (hp : Heap)
  : option (bool * Heap) :=
  '(s, hp1) ← op_subscript this k hp;
  hp2 ← assign s v hp1;
  Some (true, hp2).

(** [erase(key)] *)
Definition erase (this : TensorMap) (key : Key) (hp : Heap)
  : option (nat * Heap) :=
  m ← tensors this hp;
  let r := map_erase key m in
  hp' ← set_tensors this r.1 hp;
  Some (r.2, hp').

(** [size()] *)
Definition size_ (this : TensorMap) (hp : Heap) : option nat :=
  m ← tensors this hp;
  Some (size m).

(** [keys()]: the vector is built with [size()] default tensors in it, and
    the loop pushes one tensor per entry behind them. *)
Definition keys (this : TensorMap) (hp : Heap) : option (list Tensor) :=
  m ← tensors this hp;
  Some (foldl (λ ks kv, ks ++ [Tensor_of_key kv.1])
          (replicate (size m) Tensor_default) (map_to_list m)).

(** ** Derived copies *)

(** [Copy()] *)
Definition Copy (this : TensorMap) (hp : Heap) : option (TensorMap * Heap) :=
  let '(out, hp1) := TensorMap_new hp in
  let out := mkTensorMap (element_shape this) (element_dtype this)
               (max_num_elements this) (tensors_ out) in
  m ← tensors this hp1;
  hp2 ← set_tensors out m hp1;
  Some (out, hp2).

(** [Zeros()]: one [try_emplace(it->first, Tensor(0))] per entry. *)
Definition Zeros (this : TensorMap) (hp : Heap) : option (TensorMap * Heap) :=
  let '(out, hp1) := TensorMap_new hp in
  let out := mkTensorMap (element_shape this) (element_dtype this)
               (max_num_elements this) (tensors_ out) in
  m ← tensors this hp1;
  m0 ← tensors out hp1;
  hp2 ← set_tensors out
          (foldl (λ acc kv, (try_emplace kv.1 Tensor_zero acc).1) m0
             (map_to_list m)) hp1;
  Some (out, hp2).

(** ** Serialization *)

(** Modelled from the spec: the "sequence of named sub-payloads"
    ([VariantTensorData], of framework/variant_tensor_data.h) that [Encode]
    fills: the
    three header fields, the number of entries, and one sub-payload per
    entry holding the key, as a plain tensor, and the value. *)
Record VariantTensorData := mkVariantTensorData {
  data_shape : Shape;
  data_dtype : DType;
  data_max_num_elements : Z;
  data_count : nat;
  data_entries : list (Tensor * Tensor);
}.

(** Modelled from the spec: [Encode], which the header declares and
    tensor_map.cc defines.  "Externalize, in a
    stable order: the header fields and the full table contents (every key
    and value)". *)
Definition Encode (this : TensorMap) (hp : Heap) : option VariantTensorData :=
  m ← tensors this hp;
  Some (mkVariantTensorData (element_shape this) (element_dtype this)
          (max_num_elements this) (size m)
          ((λ kv, (Tensor_of_key kv.1, kv.2)) <$> map_to_list m)).

(** Modelled from the spec: how an entry's sub-payload decodes "as a valid
    key/value pair", given the partial inverse [key_of] of [Tensor_of_key]. *)
Definition decode_entry (key_of : Tensor → option Key) (e : Tensor * Tensor)
  : option (Key * Tensor) :=
  k ← key_of e.1;
  Some (k, e.2).

(** Modelled from the spec: [Decode], which the header declares and
    tensor_map.cc defines.  It fails on "an
    unexpected sub-payload count" and when an entry "fails to decode as a
    valid key/value pair", and otherwise "fully overwrite[s] the
    destination's table and header".  [None] is undefined behaviour (a null
    or dangling [tensors_]); [Some None] is a reported decode failure. *)
Definition Decode (key_of : Tensor → option Key) (this : TensorMap)
    (data : VariantTensorData) (hp : Heap)
  : option (option (TensorMap * Heap)) :=
  _ ← tensors this hp;
  if decide (length (data_entries data) = data_count data) then
    match mapM (decode_entry key_of) (data_entries data) with
    | None => Some None
    | Some kvs =>
        let this' := mkTensorMap (data_shape data) (data_dtype data)
                       (data_max_num_elements data) (tensors_ this) in
        hp' ← set_tensors this' (list_to_map kvs) hp;
        Some (Some (this', hp'))
    end
  else Some None.

(** ** Programs over named handles

    A [World] is the set of live [TensorMap] objects, by name, and the heap
    of storage blocks they point into. *)

Record World := mkWorld {
  store : gmap var TensorMap;
  heap : Heap;
}.

Definition empty_world : World := mkWorld ∅ empty_heap.

Inductive stmt :=
  | SDecl (x : var)                          (* TensorMap x; *)
  | SCopyCtor (x y : var)                    (* TensorMap x(y); *)
  | SMoveCtor (x y : var)                    (* TensorMap x(std::move(y)); *)
  | SCopyAssign (x y : var)                  (* x = y; *)
  | SMoveAssign (x y : var)                  (* x = std::move(y); *)
  | SDestroy (x : var)                       (* the lifetime of x ends *)
  | SCopy (x y : var)                        (* TensorMap x = y.Copy(); *)
  | SZeros (x y : var)                       (* TensorMap x = y.Zeros(); *)
  | SInsert (x : var) (k : Key) (v : Tensor)   (* x.insert(k, v); *)
  | SReplace (x : var) (k : Key) (v : Tensor)  (* x.replace(k, v); *)
  | SErase (x : var) (k : Key)                 (* x.erase(k); *)
  | SSubscript (x : var) (k : Key)             (* x[k]; *)
  | SSetHeader (x : var) (s : Shape) (d : DType) (n : Z).
      (* x.element_shape = s; x.element_dtype = d; x.max_num_elements = n; *)

(** Bind a newly constructed object to a name not yet in use. *)
Definition declare (x : var) (h : TensorMap) (hp : Heap) (w : World)
  : option World :=
  match store w !! x with
  | Some _ => None
  | None => Some (mkWorld (<[x := h]> (store w)) hp)
  end.

Definition exec (s : stmt) (w : World) : option World :=
  match s with
  | SDecl x =>
      let '(h, hp) := TensorMap_new (heap w) in declare x h hp w
  | SCopyCtor x y =>
      other ← store w !! y;
      '(h, hp) ← TensorMap_copy other (heap w);
      declare x h hp w
  | SMoveCtor x y =>
      rhs ← store w !! y;
      let '(h, rhs') := TensorMap_move rhs in
      declare x h (heap w) (mkWorld (<[y := rhs']> (store w)) (heap w))
  | SCopyAssign x y =>
      this ← store w !! x;
      rhs ← store w !! y;
      if decide (x = y) then Some w
      else
        '(this', hp) ← copy_assign this rhs (heap w);
        Some (mkWorld (<[x := this']> (store w)) hp)
  | SMoveAssign x y =>
      this ← store w !! x;
      rhs ← store w !! y;
      if decide (x = y) then Some w
      else
        let '(this', rhs') := move_assign this rhs in
        Some (mkWorld (<[x := this']> (<[y := rhs']> (store w))) (heap w))
  | SDestroy x =>
      this ← store w !! x;
      hp ← TensorMap_destroy this (heap w);
      Some (mkWorld (delete x (store w)) hp)
  | SCopy x y =>
      this ← store w !! y;
      '(h, hp) ← Copy this (heap w);
      declare x h hp w
  | SZeros x y =>
      this ← store w !! y;
      '(h, hp) ← Zeros this (heap w);
      declare x h hp w
  | SInsert x k v =>
      this ← store w !! x;
      '(_, hp) ← insert this k v (heap w);
      Some (mkWorld (store w) hp)
  | SReplace x k v =>
      this ← store w !! x;
      '(_, hp) ← replace this k v (heap w);
      Some (mkWorld (store w) hp)
  | SErase x k =>
      this ← store w !! x;
      '(_, hp) ← erase this k (heap w);
      Some (mkWorld (store w) hp)
  | SSubscript x k =>
      this ← store w !! x;
      '(_, hp) ← op_subscript this k (heap w);
      Some (mkWorld (store w) hp)
  | SSetHeader x s d n =>
      this ← store w !! x;
      Some (mkWorld (<[x := mkTensorMap s d n (tensors_ this)]> (store w))
              (heap w))
  end.

Fixpoint run (prog : list stmt) (w : World) : option World :=
  match prog with
  | [] => Some w
  | s :: prog' => w' ← exec s w; run prog' w'
  end.

(** The table operations of a handle, the statements that leave every
    handle and every reference count as they are. *)
Definition table_op_on (x : var) (s : stmt) : bool :=
  match s with
  | SInsert y _ _ | SReplace y _ _ | SErase y _ | SSubscript y _ =>
      bool_decide (x = y)
  | _ => false
  end.

(** The table seen through the object named [x]. *)
Definition table_of (x : var) (w : World) : option (gmap Key Tensor) :=
  this ← store w !! x;
  tensors this (heap w).

(** The block the object named [x] points to. *)
Definition block_of (x : var) (w : World) : option ptr :=
  this ← store w !! x;
  tensors_ this.

(** The header fields of the object named [x]. *)
Definition header_of (x : var) (w : World) : option (Shape * DType * Z) :=
  header <$> store w !! x.

(** The count stored in the block of the object named [x]. *)
Definition count_of (x : var) (w : World) : option Z :=
  p ← block_of x w;
  t ← cells (heap w) !! p;
  Some (ref_ t).

(** [x.RefCountIsOne()] *)
Definition RefCountIsOne_of (x : var) (w : World) : option bool :=
  this ← store w !! x;
  RefCountIsOne this (heap w).

(** Every member function of the header that dereferences [tensors_] is
    undefined on the handle [this]: the table operations [insert],
    [replace], [erase], [operator[]], [find], [lookup], [size] and [keys],
    then [RefCountIsOne], copy construction from [this], copy assignment
    from [this] to any handle, [Copy] and [Zeros]. *)
Definition no_use (this : TensorMap) (hp : Heap) : Prop :=
  (∀ k v, insert this k v hp = None) ∧
  (∀ k v, replace this k v hp = None) ∧
  (∀ k, erase this k hp = None) ∧
  (∀ k, op_subscript this k hp = None) ∧
  (∀ k, find this k hp = None) ∧
  (∀ k, lookup this k hp = None) ∧
  size_ this hp = None ∧
  keys this hp = None ∧
  RefCountIsOne this hp = None ∧
  TensorMap_copy this hp = None ∧
  (∀ other, copy_assign other this hp = None) ∧
  Copy this hp = None ∧
  Zeros this hp = None.

(** The object named [y] is there, and nothing can be done through it but
    to destroy it or to assign to it: every statement that is a table
    operation through [y] is undefined, and so is every member function
    that dereferences [tensors_]. *)
Definition unusable (y : var) (w : World) : Prop :=
  (∀ s, table_op_on y s = true → exec s w = None) ∧
  ∃ this, store w !! y = Some this ∧ no_use this (heap w).

(** The object named [y] is on a block that is there: every statement that
    is a table operation through [y] is defined; with [m] the table of the
    block, [find] gives the entry of [m], [lookup] is defined exactly on the
    keys of [m], [size] is the size of [m] and [keys] is defined; and
    [RefCountIsOne], copy construction from [y], [Copy] and [Zeros] are
    defined. *)
Definition usable (y : var) (w : World) : Prop :=
  (∀ s, table_op_on y s = true → is_Some (exec s w)) ∧
  ∃ this m, store w !! y = Some this ∧ tensors this (heap w) = Some m ∧
    (∀ k, find this k (heap w) = Some (m !! k)) ∧
    (∀ k, is_Some (lookup this k (heap w)) ↔ is_Some (m !! k)) ∧
    size_ this (heap w) = Some (size m) ∧
    is_Some (keys this (heap w)) ∧
    is_Some (RefCountIsOne this (heap w)) ∧
    is_Some (TensorMap_copy this (heap w)) ∧
    is_Some (Copy this (heap w)) ∧
    is_Some (Zeros this (heap w)).

(** A program made of table operations through [x] only. *)
Definition table_ops_on (x : var) (ops : list stmt) : Prop :=
  Forall (λ s, table_op_on x s = true) ops.


(** [b], made in [w'] from [a] of [w], is a derived copy holding table [m]:
    its block [q] is new (not in use, never freed, pointed to by no handle
    of [w]) and holds [m] with count 1; [b] has the header fields of [a];
    [a] and its block [p], holding [t], are as they were; and whatever
    table operations run through one of the two objects, the other still
    sees its own table. *)
Definition derived_copy (w w' : World) (a b : var) (p q : ptr) (t : Tensors)
    (m : gmap Key Tensor) : Prop :=
  (cells (heap w) !! q = None ∧ (q ∉ freed (heap w)) ∧
   (∀ x, block_of x w ≠ Some q) ∧ q ≠ p) ∧
  block_of b w' = Some q ∧
  cells (heap w') !! q = Some (mkTensors 1 m) ∧
  header_of b w' = header_of a w ∧
  store w' !! a = store w !! a ∧
  cells (heap w') !! p = Some t ∧
  (∀ ops, table_ops_on b ops →
     ∃ w'', run ops w' = Some w'' ∧ table_of a w'' = Some (values_ t) ∧
            block_of a w'' = Some p ∧ cells (heap w'') !! p = Some t) ∧
  (∀ ops, table_ops_on a ops →
     ∃ w'', run ops w' = Some w'' ∧ table_of b w'' = Some m ∧
            block_of b w'' = Some q ∧
            cells (heap w'') !! q = Some (mkTensors 1 m)).


(** The statement that the source of a move, by construction or by
    assignment, is left unusable. *)
Definition moved_from_always_unusable : Prop :=
  ∀ prog w x y w',
    run prog empty_world = Some w → x ≠ y →
    (exec (SMoveCtor x y) w = Some w' ∨ exec (SMoveAssign x y) w = Some w') →
    unusable y w'.

(** ** The reference-count invariant *)

(** The live handles that point to block [p], and how many they are. *)
Definition handles_on (p : ptr) (σ : gmap var TensorMap) : gmap var TensorMap :=
  filter (λ xh, tensors_ xh.2 = Some p) σ.

Definition refs (p : ptr) (σ : gmap var TensorMap) : nat :=
  size (handles_on p σ).

(** The count stored in block [p]; 0 for a block that is not there. *)
Definition rc (hp : Heap) (p : ptr) : Z :=
  match cells hp !! p with
  | Some t => ref_ t
  | None => 0%Z
  end.

(** 1 when the handle points to block [p], 0 otherwise. *)
Definition ind (p : ptr) (h : TensorMap) : nat :=
  if decide (tensors_ h = Some p) then 1%nat else 0%nat.

(** Every block counts exactly the live handles that point to it. *)
Definition count_ok (σ : gmap var TensorMap) (hp : Heap) : Prop :=
  ∀ p, rc hp p = Z.of_nat (refs p σ).

Record heap_ok (hp : Heap) : Prop := mkHeapOk {
  (** a block that is there has a positive count *)
  ok_pos : ∀ p t, cells hp !! p = Some t → (1 ≤ ref_ t)%Z;
  (** addresses are handed out in order *)
  ok_next : ∀ p, is_Some (cells hp !! p) → (p < next hp)%positive;
  (** no block is deleted twice *)
  ok_freed_nodup : NoDup (freed hp);
  (** a deleted block is gone for good *)
  ok_freed : ∀ p, p ∈ freed hp → cells hp !! p = None ∧ (p < next hp)%positive;
}.

Definition wf (w : World) : Prop :=
  count_ok (store w) (heap w) ∧ heap_ok (heap w).

(** ** How a statement changes the heap *)

(** The statements that go through [tensors()]: the four table operations. *)
Definition is_table_op (s : stmt) : bool :=
  match s with
  | SInsert _ _ _ | SReplace _ _ _ | SErase _ _ | SSubscript _ _ => true
  | _ => false
  end.

(** A heap reached from another by the elementary changes the header makes:
    a new count in a block ([Ref], [Unref]), a new table in a block (only
    when [tbl] allows it), a new block with count 1 ([new Tensors]), and
    the deletion of a block whose count is 1 ([Unref]). *)
Inductive heap_steps (tbl : bool) : Heap → Heap → Prop :=
  | steps_done hp : heap_steps tbl hp hp
  | steps_count hp hp' p t c :
      cells hp !! p = Some t → (1 ≤ c)%Z →
      heap_steps tbl (set_cell p (mkTensors c (values_ t)) hp) hp' →
      heap_steps tbl hp hp'
  | steps_table hp hp' p t m :
      tbl = true → cells hp !! p = Some t →
      heap_steps tbl (set_cell p (mkTensors (ref_ t) m) hp) hp' →
      heap_steps tbl hp hp'
  | steps_alloc hp hp' m :
      heap_steps tbl
        (mkHeap (<[next hp := mkTensors 1 m]> (cells hp)) (Pos.succ (next hp))
           (freed hp)) hp' →
      heap_steps tbl hp hp'
  | steps_delete hp hp' p t :
      cells hp !! p = Some t → ref_ t = 1%Z →
      heap_steps tbl (mkHeap (delete p (cells hp)) (next hp) (p :: freed hp)) hp' →
      heap_steps tbl hp hp'.

(** Every block of [hp] is, in [hp'], either deleted or there with the same
    table. *)
Definition tables_kept (hp hp' : Heap) : Prop :=
  ∀ p t, cells hp !! p = Some t →
    cells hp' !! p = None ∨
    ∃ c, cells hp' !! p = Some (mkTensors c (values_ t)).

(** Every address handed out so far is that of a block that is there or of
    a block that was deleted; no other address is in use. *)
Definition accounted (hp : Heap) : Prop :=
  ∀ p, ((p < next hp)%positive →
          is_Some (cells hp !! p) ∨ p ∈ freed hp) ∧
       ((next hp ≤ p)%positive →
          cells hp !! p = None ∧ p ∉ freed hp).

(** The key a table operation names. *)
Definition stmt_key (s : stmt) : option Key :=
  match s with
  | SInsert _ k _ | SReplace _ k _ | SErase _ k | SSubscript _ k => Some k
  | _ => None
  end.

(** What a table operation does to the entry of its key, given what is
    stored there. *)
Definition entry_change (s : stmt) (o : option Tensor) : option Tensor :=
  match s with
  | SInsert _ _ v => Some (default v o)
  | SReplace _ _ v => Some v
  | SErase _ _ => None
  | SSubscript _ _ => Some (default Tensor_default o)
  | _ => o
  end.

End Model.

(** ** A small instance, for running the model

    Keys are integers, a tensor is either the default-constructed one or an
    integer scalar, a shape is a list of dimensions or unknown. *)
Module Toy.

Inductive tensor :=
  | Empty
  | Scalar (n : Z).

Inductive dtype :=
  | DT_INVALID
  | DT_FLOAT
  | DT_INT32.

#[export] Instance tensor_types : TensorTypes Z tensor :=
  {| Tensor_default := Empty; Tensor_zero := Scalar 0; Tensor_of_key := Scalar |}.

#[export] Instance header_types : HeaderTypes (option (list Z)) dtype :=
  {| Shape_default := None; Shape_moved_from := λ _, None;
     DType_uninit := DT_INVALID |}.

(** The key a tensor stands for, when it is a scalar. *)
Definition key_of (t : tensor) : option Z :=
  match t with
  | Scalar n => Some n
  | Empty => None
  end.

(** A handle on block 1 and a heap in which that block holds [7 ↦ Scalar 1],
    referenced once. *)
Definition h1 : TensorMap (Shape := option (list Z)) (DType := dtype) :=
  mkTensorMap (Some [2%Z; (-1)%Z]) DT_FLOAT 0 (Some 1%positive).

Definition one_entry : Heap (Key := Z) (Tensor := tensor) :=
  mkHeap {[ 1%positive := mkTensors 1 {[ 7%Z := Scalar 1 ]} ]} 2%positive [].

(** The world after [TensorMap a; a.insert(7, Scalar 1);]. *)
Definition w_a : World (Key := Z) (Tensor := tensor)
                   (Shape := option (list Z)) (DType := dtype) :=
  mkWorld {[ "a" := mkTensorMap None DT_INVALID (-1) (Some 1%positive) ]}
    (mkHeap {[ 1%positive := mkTensors 1 {[ 7%Z := Scalar 1 ]} ]} 2%positive []).

(** The world after [TensorMap a; TensorMap b(a);]: two handles on one
    empty block. *)
Definition w_ab : World (Key := Z) (Tensor := tensor)
                    (Shape := option (list Z)) (DType := dtype) :=
  mkWorld {[ "a" := mkTensorMap None DT_INVALID (-1) (Some 1%positive);
             "b" := mkTensorMap None DT_INVALID (-1) (Some 1%positive) ]}
    (mkHeap {[ 1%positive := mkTensors 2 ∅ ]} 2%positive []).

(** The world after [TensorMap a; TensorMap b;]: two handles, two blocks. *)
Definition w_a_b : World (Key := Z) (Tensor := tensor)
                     (Shape := option (list Z)) (DType := dtype) :=
  mkWorld {[ "a" := mkTensorMap None DT_INVALID (-1) (Some 1%positive);
             "b" := mkTensorMap None DT_INVALID (-1) (Some 2%positive) ]}
    (mkHeap {[ 1%positive := mkTensors 1 ∅; 2%positive := mkTensors 1 ∅ ]}
       3%positive []).

(** A handle on block 2, and a heap in which block 2 holds [9 ↦ Empty]
    next to block 1 of [one_entry]. *)
Definition h2 : TensorMap (Shape := option (list Z)) (DType := dtype) :=
  mkTensorMap None DT_INT32 (-1) (Some 2%positive).

Definition two_blocks : Heap (Key := Z) (Tensor := tensor) :=
  mkHeap {[ 1%positive := mkTensors 1 {[ 7%Z := Scalar 1 ]};
            2%positive := mkTensors 1 {[ 9%Z := Empty ]} ]} 3%positive [].

(** A default-constructed handle on block 1. *)
Definition h_a : TensorMap (Shape := option (list Z)) (DType := dtype) :=
  mkTensorMap None DT_INVALID (-1) (Some 1%positive).

(** The world after [TensorMap a; TensorMap b(std::move(a));]: [a] is
    moved-from, [b] is on block 1. *)
Definition w_moved : World (Key := Z) (Tensor := tensor)
                       (Shape := option (list Z)) (DType := dtype) :=
  mkWorld {[ "a" := mkTensorMap None DT_INVALID (-1) None;
             "b" := mkTensorMap None DT_INVALID (-1) (Some 1%positive) ]}
    (mkHeap {[ 1%positive := mkTensors 1 ∅ ]} 2%positive []).

(** The world after [TensorMap a; TensorMap b; b = a;]: both handles are on
    block 1 and block 2 has been deleted. *)
Definition w_assigned : World (Key := Z) (Tensor := tensor)
                          (Shape := option (list Z)) (DType := dtype) :=
  mkWorld {[ "a" := mkTensorMap None DT_INVALID (-1) (Some 1%positive);
             "b" := mkTensorMap None DT_INVALID (-1) (Some 1%positive) ]}
    (mkHeap {[ 1%positive := mkTensors 2 ∅ ]} 3%positive [2%positive]).

End Toy.

(** * Properties *)

Section Proofs.
Context {Key : Type} `{Countable Key} {Tensor : Type} `{!TensorTypes Key Tensor}.
Context {Shape DType : Type} `{!HeaderTypes Shape DType}.

Implicit Types (p q : ptr) (k key : Key) (v value : Tensor).
Implicit Types (m : gmap Key Tensor) (t : Tensors (Key := Key) (Tensor := Tensor)).
Implicit Types (hp : Heap (Key := Key) (Tensor := Tensor)).
Implicit Types (this rhs other h : TensorMap (Shape := Shape) (DType := DType)).

(** ** Blocks and tables *)

Lemma set_cell_id p t hp : cells hp !! p = Some t → set_cell p t hp = hp.
Proof.
  intros Hp. destruct hp as [c n f]; unfold set_cell; simpl in *.
  by rewrite insert_id.
Qed.

Lemma tensors_Some this hp m :
  tensors this hp = Some m ↔
  ∃ p t, tensors_ this = Some p ∧ cells hp !! p = Some t ∧ values_ t = m.
Proof.
  unfold tensors. split.
  - intros Hm. destruct (tensors_ this) as [p|]; simpl in Hm; [|done].
    destruct (cells hp !! p) as [t|] eqn:Hp; simpl in Hm; [|done].
    exists p, t. by simplify_eq.
  - intros (p & t & -> & Hp & <-). simpl. by rewrite Hp.
Qed.

Lemma set_tensors_Some this hp p t m :
  tensors_ this = Some p → cells hp !! p = Some t →
  set_tensors this m hp = Some (set_cell p (mkTensors (ref_ t) m) hp).
Proof. intros Hthis Hp. unfold set_tensors. rewrite Hthis. simpl. by rewrite Hp. Qed.

Lemma tensors_set_cell this hp p t :
  tensors_ this = Some p → tensors this (set_cell p t hp) = Some (values_ t).
Proof.
  intros Hthis. unfold tensors, set_cell. rewrite Hthis. simpl.
  by rewrite lookup_insert_eq.
Qed.

Lemma cells_set_cell_ne p q t hp :
  p ≠ q → cells (set_cell p t hp) !! q = cells hp !! q.
Proof. intros. unfold set_cell; simpl. by rewrite lookup_insert_ne. Qed.

Lemma cells_set_cell_eq p t hp : cells (set_cell p t hp) !! p = Some t.
Proof. unfold set_cell; simpl. by rewrite lookup_insert_eq. Qed.

(** What [insert] does to a handle on a live block, in one equation. *)
Lemma insert_eq this hp p t key value :
  tensors_ this = Some p → cells hp !! p = Some t →
  insert this key value hp =
    Some ((try_emplace key value (values_ t)).2,
          set_cell p (mkTensors (ref_ t) (try_emplace key value (values_ t)).1) hp).
Proof.
  intros Hthis Hp. unfold insert.
  assert (tensors this hp = Some (values_ t)) as -> by (apply tensors_Some; eauto).
  simpl. by rewrite (set_tensors_Some _ _ p t).
Qed.

Lemma try_emplace_absent k v m :
  m !! k = None → try_emplace k v m = (<[k := v]> m, true).
Proof. intros Hk. unfold try_emplace. by rewrite Hk. Qed.

Lemma try_emplace_present k v v0 m :
  m !! k = Some v0 → try_emplace k v m = (m, false).
Proof. intros Hk. unfold try_emplace. by rewrite Hk. Qed.

(** ** insert *)

Lemma insert_only_if_absent_aux this hp m key value :
  tensors this hp = Some m → m !! key = None →
  ∃ hp', insert this key value hp = Some (true, hp') ∧
         size_ this hp' = Some (S (size m)).
Proof.
  intros (p & t & Hthis & Hp & <-)%tensors_Some Hk.
  eexists. rewrite (insert_eq _ _ p t) by done.
  rewrite try_emplace_absent by done. simpl. split; [done|].
  unfold size_. rewrite tensors_set_cell by done. simpl.
  by rewrite map_size_insert_None.
Qed.

(** C5: [insert(key, value)] inserts only if the key is absent and returns
    whether the insertion happened.  On a handle whose table is [m]: when
    [key] is absent the pair is stored, nothing else changes and [true] is
    returned; when [key] is present the heap is left exactly as it was (the
    stored value is kept, the size is the same) and [false] is returned.  So
    [insert(k, v1)] followed by [insert(k, v2)] on a table without [k]
    returns [true], then [false], and leaves [v1] stored. *)
Theorem insert_only_if_absent this hp m key :
  tensors this hp = Some m →
  (m !! key = None → ∀ value, ∃ hp',
      insert this key value hp = Some (true, hp') ∧
      tensors this hp' = Some (<[key := value]> m) ∧
      find this key hp' = Some (Some value) ∧
      size_ this hp' = Some (S (size m))) ∧
  (∀ v0, m !! key = Some v0 → ∀ value,
      insert this key value hp = Some (false, hp) ∧
      find this key hp = Some (Some v0) ∧
      size_ this hp = Some (size m)) ∧
  (m !! key = None → ∀ v1 v2, ∃ hp1 hp2,
      insert this key v1 hp = Some (true, hp1) ∧
      insert this key v2 hp1 = Some (false, hp2) ∧
      hp2 = hp1 ∧
      find this key hp2 = Some (Some v1)).
Proof.
  intros Hm. pose proof Hm as (p & t & Hthis & Hp & <-)%tensors_Some.
  assert (∀ value, values_ t !! key = None → ∃ hp',
      insert this key value hp = Some (true, hp') ∧
      tensors this hp' = Some (<[key := value]> (values_ t)) ∧
      find this key hp' = Some (Some value) ∧
      size_ this hp' = Some (S (size (values_ t))) ∧
      cells hp' !! p = Some (mkTensors (ref_ t) (<[key := value]> (values_ t))))
    as Habsent.
  { intros value Hk. eexists. rewrite (insert_eq _ _ p t) by done.
    rewrite try_emplace_absent by done. simpl. split; [done|].
    unfold find, size_. rewrite tensors_set_cell by done. simpl.
    rewrite lookup_insert_eq, map_size_insert_None by done.
    repeat split. apply lookup_insert_eq. }
  assert (∀ hp0 t0 v0 value,
      cells hp0 !! p = Some t0 → values_ t0 !! key = Some v0 →
      insert this key value hp0 = Some (false, hp0) ∧
      find this key hp0 = Some (Some v0) ∧
      size_ this hp0 = Some (size (values_ t0))) as Hpresent.
  { intros hp0 t0 v0 value Hp0 Hk. rewrite (insert_eq _ _ p t0) by done.
    rewrite (try_emplace_present _ _ v0) by done. simpl.
    assert (tensors this hp0 = Some (values_ t0)) as Ht0
      by (apply tensors_Some; eauto).
    unfold find, size_. rewrite Ht0. simpl. rewrite Hk.
    split; [|done]. do 2 f_equal. destruct t0; simpl. by apply set_cell_id. }
  split; [|split].
  - intros Hk value. destruct (Habsent value Hk) as (hp' & ? & ? & ? & ? & _).
    eauto.
  - intros v0 Hk value. by apply (Hpresent hp t v0).
  - intros Hk v1 v2. destruct (Habsent v1 Hk) as (hp1 & Hi1 & _ & _ & _ & Hp1).
    destruct (Hpresent hp1 _ v1 v2 Hp1) as (Hi2 & Hf & _).
    { simpl. by rewrite lookup_insert_eq. }
    exists hp1, hp1. done.
Qed.

(** ** operator[] and replace *)

Lemma op_subscript_eq this hp p t k :
  tensors_ this = Some p → cells hp !! p = Some t →
  op_subscript this k hp =
    Some ((p, k), set_cell p (mkTensors (ref_ t) (subscript k (values_ t))) hp).
Proof.
  intros Hthis Hp. unfold op_subscript. rewrite Hthis. simpl.
  assert (tensors this hp = Some (values_ t)) as -> by (apply tensors_Some; eauto).
  simpl. by rewrite (set_tensors_Some _ _ p t).
Qed.

Lemma subscript_lookup k m :
  subscript k m !! k = Some (default Tensor_default (m !! k)).
Proof.
  unfold subscript. destruct (m !! k) eqn:Hk; simpl; [done|].
  by rewrite lookup_insert_eq.
Qed.

Lemma insert_subscript k v m : <[k := v]> (subscript k m) = <[k := v]> m.
Proof.
  unfold subscript. destruct (m !! k); [done|]. by rewrite insert_insert_eq.
Qed.

Lemma set_cell_set_cell p t t' hp :
  set_cell p t (set_cell p t' hp) = set_cell p t hp.
Proof. unfold set_cell; simpl. by rewrite insert_insert_eq. Qed.

Lemma replace_eq this hp p t k v :
  tensors_ this = Some p → cells hp !! p = Some t →
  replace this k v hp =
    Some (true, set_cell p (mkTensors (ref_ t) (<[k := v]> (values_ t))) hp).
Proof.
  intros Hthis Hp. unfold replace. rewrite (op_subscript_eq _ _ p t) by done.
  simpl. unfold assign. simpl. rewrite lookup_insert_eq. simpl.
  rewrite subscript_lookup. simpl.
  fold (set_cell p (mkTensors (ref_ t) (subscript k (values_ t))) hp).
  by rewrite set_cell_set_cell, insert_subscript.
Qed.

(** C10: [operator[](k)] is a mutation path.  On a handle whose table is
    [m]: when [k] is absent it stores [k] with a default-constructed value,
    the size grows by one, and the reference it returns is the slot of [k]
    in the handle's block, holding that new value; when [k] is present the
    heap is left exactly as it was and the reference is the slot of the
    existing value.  [replace(k, v)], built on it, always returns [true]
    and leaves [v] stored under [k]. *)
Theorem subscript_inserts_default this hp m k :
  tensors this hp = Some m →
  (∃ p hp', tensors_ this = Some p ∧
      op_subscript this k hp = Some ((p, k), hp') ∧
      deref (p, k) hp' = Some (default Tensor_default (m !! k))) ∧
  (m !! k = None → ∃ s hp',
      op_subscript this k hp = Some (s, hp') ∧
      tensors this hp' = Some (<[k := Tensor_default]> m) ∧
      size_ this hp' = Some (S (size m)) ∧
      deref s hp' = Some Tensor_default) ∧
  (∀ v0, m !! k = Some v0 → ∃ s,
      op_subscript this k hp = Some (s, hp) ∧
      deref s hp = Some v0 ∧
      size_ this hp = Some (size m)) ∧
  (∀ v, ∃ hp',
      replace this k v hp = Some (true, hp') ∧
      tensors this hp' = Some (<[k := v]> m) ∧
      find this k hp' = Some (Some v)).
Proof.
  intros Hm. pose proof Hm as (p & t & Hthis & Hp & <-)%tensors_Some.
  pose proof (op_subscript_eq this hp p t k Hthis Hp) as Hsub.
  assert (∀ t', deref (p, k) (set_cell p t' hp) = values_ t' !! k) as Hderef.
  { intros t'. unfold deref. simpl. by rewrite lookup_insert_eq. }
  split; [|split; [|split]].
  - eexists p, _. split; [done|]. split; [exact Hsub|].
    rewrite Hderef. simpl. apply subscript_lookup.
  - intros Hk. eexists (p, k), _. split; [exact Hsub|].
    rewrite Hderef. unfold size_. rewrite tensors_set_cell by done. simpl.
    unfold subscript. rewrite Hk.
    by rewrite lookup_insert_eq, map_size_insert_None.
  - intros v0 Hk. exists (p, k).
    assert (subscript k (values_ t) = values_ t) as Hsame
      by (unfold subscript; by rewrite Hk).
    rewrite Hsub, Hsame. split.
    + do 2 f_equal. destruct t; simpl. by apply set_cell_id.
    + unfold deref, size_. simpl. rewrite Hm, Hp. done.
  - intros v. eexists. rewrite (replace_eq _ _ p t) by done. split; [done|].
    unfold find. rewrite tensors_set_cell by done. simpl.
    by rewrite lookup_insert_eq.
Qed.

(** ** erase, find, lookup, size *)

Lemma erase_eq this hp p t key :
  tensors_ this = Some p → cells hp !! p = Some t →
  erase this key hp =
    Some ((map_erase key (values_ t)).2,
          set_cell p (mkTensors (ref_ t) (map_erase key (values_ t)).1) hp).
Proof.
  intros Hthis Hp. unfold erase.
  assert (tensors this hp = Some (values_ t)) as -> by (apply tensors_Some; eauto).
  simpl. by rewrite (set_tensors_Some _ _ p t).
Qed.

(** ** keys *)

Lemma foldl_push_back {A B} (f : A → B) (l : list A) (init : list B) :
  foldl (λ ks a, ks ++ [f a]) init l = init ++ (f <$> l).
Proof.
  revert init. induction l as [|a l IH]; intros init; simpl.
  - by rewrite app_nil_r.
  - rewrite IH. by rewrite <- app_assoc.
Qed.

(** [keys()] returns [size()] default-constructed tensors followed by the
    keys in iteration order. *)
Lemma keys_eq this hp m :
  tensors this hp = Some m →
  keys this hp =
    Some (replicate (size m) Tensor_default ++
          (Tensor_of_key <$> (map_to_list m).*1)).
Proof.
  intros Hm. unfold keys. rewrite Hm. simpl. f_equal.
  rewrite (foldl_push_back (λ kv, Tensor_of_key kv.1)).
  f_equal. by rewrite <- list_fmap_compose.
Qed.

Lemma keys_length this hp m ks :
  tensors this hp = Some m → keys this hp = Some ks →
  length ks = (2 * size m)%nat.
Proof.
  intros Hm Hks. rewrite (keys_eq _ _ m) in Hks by done. simplify_eq.
  rewrite length_app, length_replicate, !length_fmap, length_map_to_list. lia.
Qed.

Lemma keys_complete this hp m ks k :
  tensors this hp = Some m → keys this hp = Some ks →
  is_Some (m !! k) → Tensor_of_key k ∈ ks.
Proof.
  intros Hm Hks [v Hk]. rewrite (keys_eq _ _ m) in Hks by done. simplify_eq.
  apply elem_of_app. right. apply list_elem_of_fmap. exists k. split; [done|].
  apply list_elem_of_fmap. exists (k, v). split; [done|].
  by apply elem_of_map_to_list.
Qed.

(** ** max_num_elements *)

(** C8: [max_num_elements] is advisory.  Whatever value [n] the field
    holds, [insert], [replace], [erase], [find], [lookup], [operator[]],
    [size] and [keys] return what they return when it holds [-1], and leave
    the heap as they leave it then.  In particular [insert] of an absent
    key returns [true] and the size grows by one even when the size already
    equals or exceeds a non-negative [n]. *)
Theorem max_num_elements_not_enforced this hp (n : Z) :
  (∀ k v, insert (with_max n this) k v hp = insert (with_max (-1) this) k v hp) ∧
  (∀ k v, replace (with_max n this) k v hp = replace (with_max (-1) this) k v hp) ∧
  (∀ k, erase (with_max n this) k hp = erase (with_max (-1) this) k hp) ∧
  (∀ k, find (with_max n this) k hp = find (with_max (-1) this) k hp) ∧
  (∀ k, lookup (with_max n this) k hp = lookup (with_max (-1) this) k hp) ∧
  (∀ k, op_subscript (with_max n this) k hp
        = op_subscript (with_max (-1) this) k hp) ∧
  size_ (with_max n this) hp = size_ (with_max (-1) this) hp ∧
  keys (with_max n this) hp = keys (with_max (-1) this) hp ∧
  (∀ m k v, tensors this hp = Some m → m !! k = None →
     (0 ≤ n ≤ Z.of_nat (size m))%Z →
     ∃ hp', insert (with_max n this) k v hp = Some (true, hp') ∧
            size_ (with_max n this) hp' = Some (S (size m)) ∧
            (n < Z.of_nat (S (size m)))%Z).
Proof.
  repeat split; try done.
  - intros m k v Hm Hk Hn.
    assert (tensors (with_max n this) hp = Some m) as Hm' by done.
    destruct (insert_only_if_absent_aux (with_max n this) hp m k v Hm' Hk)
      as (hp' & Hi & Hs).
    exists hp'. repeat split; [done|done|lia].
Qed.

(** ** Counting the handles on a block *)

Implicit Types (σ : gmap var (TensorMap (Shape := Shape) (DType := DType))).
Implicit Types (w : World (Key := Key) (Tensor := Tensor)
                      (Shape := Shape) (DType := DType)).
Implicit Types (x y a b : var).

Lemma refs_insert p x h σ :
  refs p (<[x := h]> σ) = (refs p (delete x σ) + ind p h)%nat.
Proof.
  unfold refs, handles_on, ind. rewrite <- insert_delete_eq.
  rewrite map_filter_insert. simpl. case_decide.
  - rewrite map_size_insert_None; [lia|].
    rewrite map_filter_delete. apply lookup_delete_eq.
  - rewrite delete_delete_eq. lia.
Qed.

Lemma refs_lookup p x h σ :
  σ !! x = Some h → refs p σ = (refs p (delete x σ) + ind p h)%nat.
Proof. intros Hx. rewrite <- (insert_id σ x h) at 1 by done. apply refs_insert. Qed.

Lemma refs_fresh p x h σ :
  σ !! x = None → refs p (<[x := h]> σ) = (refs p σ + ind p h)%nat.
Proof. intros Hx. rewrite refs_insert. by rewrite delete_id. Qed.

Lemma ind_eq p h : tensors_ h = Some p → ind p h = 1%nat.
Proof. intros Hh. unfold ind. by rewrite decide_True. Qed.

Lemma ind_ne p h : tensors_ h ≠ Some p → ind p h = 0%nat.
Proof. intros Hh. unfold ind. by rewrite decide_False. Qed.

Lemma ind_same_block p h h' :
  tensors_ h = tensors_ h' → ind p h = ind p h'.
Proof. intros Hh. unfold ind. by rewrite Hh. Qed.

Lemma rc_set_cell p r t hp :
  rc (set_cell p t hp) r = if decide (r = p) then ref_ t else rc hp r.
Proof.
  unfold rc, set_cell. simpl. case_decide as Hr.
  - subst. by rewrite lookup_insert_eq.
  - by rewrite lookup_insert_ne.
Qed.

Lemma rc_live p t hp : cells hp !! p = Some t → rc hp p = ref_ t.
Proof. intros Hp. unfold rc. by rewrite Hp. Qed.

(** A handle of a well-formed world points to a block that is there. *)
Lemma wf_live w x h p :
  wf w → store w !! x = Some h → tensors_ h = Some p →
  ∃ t, cells (heap w) !! p = Some t ∧ ref_ t = Z.of_nat (refs p (store w)) ∧
       (1 ≤ ref_ t)%Z.
Proof.
  intros [Hcount Hok] Hx Hh. specialize (Hcount p).
  rewrite (refs_lookup p x h) in Hcount by done.
  rewrite (ind_eq p h) in Hcount by done.
  unfold rc in Hcount. destruct (cells (heap w) !! p) as [t|] eqn:Hp; [|lia].
  exists t. split; [done|]. rewrite (refs_lookup p x h), (ind_eq p h) by done.
  split; [done|]. by apply (ok_pos _ Hok p).
Qed.

(** ** Each step keeps the invariant *)

Lemma heap_ok_set_cell p t t' hp :
  heap_ok hp → cells hp !! p = Some t → (1 ≤ ref_ t')%Z →
  heap_ok (set_cell p t' hp).
Proof.
  intros [Hpos Hnext Hnd Hfreed] Hp Ht'. split; simpl.
  - intros r t0. destruct (decide (p = r)) as [->|].
    + rewrite lookup_insert_eq. by intros [= <-].
    + rewrite lookup_insert_ne by done. apply Hpos.
  - intros r. destruct (decide (p = r)) as [->|].
    + intros _. apply Hnext. eauto.
    + rewrite lookup_insert_ne by done. apply Hnext.
  - done.
  - intros r Hr. destruct (Hfreed r Hr) as [Hnone Hlt]. split; [|done].
    rewrite lookup_insert_ne; [done|]. congruence.
Qed.

Lemma next_not_live hp : heap_ok hp → cells hp !! next hp = None.
Proof.
  intros Hok. destruct (cells hp !! next hp) eqn:Hn; [|done].
  assert (next hp < next hp)%positive by (apply (ok_next _ Hok); eauto). lia.
Qed.

Lemma heap_ok_alloc t hp :
  heap_ok hp → (1 ≤ ref_ t)%Z →
  heap_ok (mkHeap (<[next hp := t]> (cells hp)) (Pos.succ (next hp)) (freed hp)).
Proof.
  intros Hok Ht. pose proof (next_not_live hp Hok) as Hfresh.
  destruct Hok as [Hpos Hnext Hnd Hfreed]. split; simpl.
  - intros r t0. destruct (decide (next hp = r)) as [<-|].
    + rewrite lookup_insert_eq. by intros [= <-].
    + rewrite lookup_insert_ne by done. apply Hpos.
  - intros r. destruct (decide (next hp = r)) as [<-|].
    + intros _. lia.
    + rewrite lookup_insert_ne by done. intros Hr%Hnext. lia.
  - done.
  - intros r Hr. destruct (Hfreed r Hr) as [Hnone Hlt]. split; [|lia].
    rewrite lookup_insert_ne; [done|]. lia.
Qed.

Lemma heap_ok_delete p t hp :
  heap_ok hp → cells hp !! p = Some t →
  heap_ok (mkHeap (delete p (cells hp)) (next hp) (p :: freed hp)).
Proof.
  intros [Hpos Hnext Hnd Hfreed] Hp. split; simpl.
  - intros r t0 Hr%lookup_delete_Some. apply (Hpos r). tauto.
  - intros r [t0 Hr%lookup_delete_Some]. apply Hnext. exists t0. tauto.
  - apply NoDup_cons. split; [|done].
    intros Hin. destruct (Hfreed p Hin) as [Hnone _]. congruence.
  - intros r [->|Hr]%elem_of_cons.
    + split; [apply lookup_delete_eq|]. apply Hnext. eauto.
    + destruct (Hfreed r Hr) as [Hnone Hlt]. split; [|done].
      rewrite lookup_delete_None. tauto.
Qed.

(** A table operation: the block keeps its count, the handles stay. *)
Lemma table_update_wf σ hp p t m :
  wf (mkWorld σ hp) → cells hp !! p = Some t →
  wf (mkWorld σ (set_cell p (mkTensors (ref_ t) m) hp)).
Proof.
  intros [Hcount Hok] Hp. split; simpl in *.
  - intros r. rewrite rc_set_cell. case_decide; [subst|apply Hcount].
    simpl. rewrite <- Hcount. symmetry. by apply rc_live.
  - eapply heap_ok_set_cell; [done..|]. simpl. by apply (ok_pos _ Hok p).
Qed.

(** A new handle on a new block. *)
Lemma alloc_wf σ hp x h m :
  wf (mkWorld σ hp) → σ !! x = None → tensors_ h = Some (next hp) →
  wf (mkWorld (<[x := h]> σ)
        (mkHeap (<[next hp := mkTensors 1 m]> (cells hp)) (Pos.succ (next hp))
           (freed hp))).
Proof.
  intros [Hcount Hok] Hx Hh. simpl in *.
  pose proof (next_not_live hp Hok) as Hfresh. split; simpl.
  - intros r. rewrite refs_fresh by done. specialize (Hcount r).
    unfold rc in *. simpl. destruct (decide (r = next hp)) as [->|].
    + rewrite lookup_insert_eq, (ind_eq _ h) by done. simpl.
      rewrite Hfresh in Hcount. lia.
    + rewrite lookup_insert_ne, (ind_ne _ h) by congruence. lia.
  - by apply heap_ok_alloc.
Qed.

(** A new handle on an existing block, whose count goes up by one. *)
Lemma share_wf σ hp x h p t :
  wf (mkWorld σ hp) → σ !! x = None → tensors_ h = Some p →
  cells hp !! p = Some t →
  wf (mkWorld (<[x := h]> σ)
        (set_cell p (mkTensors (ref_ t + 1) (values_ t)) hp)).
Proof.
  intros [Hcount Hok] Hx Hh Hp. simpl in *. split; simpl.
  - intros r. rewrite refs_fresh, rc_set_cell by done. specialize (Hcount r).
    case_decide as Hr.
    + subst. rewrite (ind_eq _ h) by done. simpl.
      rewrite (rc_live p t) in Hcount by done. lia.
    + rewrite (ind_ne _ h) by congruence. lia.
  - eapply heap_ok_set_cell; [done..|]. simpl.
    pose proof (ok_pos _ Hok p t Hp). lia.
Qed.

Lemma Unref_eq p t hp :
  cells hp !! p = Some t →
  Unref p hp =
    Some (if decide (ref_ t - 1 = 0)%Z
          then mkHeap (delete p (cells hp)) (next hp) (p :: freed hp)
          else set_cell p (mkTensors (ref_ t - 1) (values_ t)) hp).
Proof. intros Hp. unfold Unref. rewrite Hp. simpl. by case_decide. Qed.

Lemma Ref_eq p t hp :
  cells hp !! p = Some t →
  Ref p hp = Some (set_cell p (mkTensors (ref_ t + 1) (values_ t)) hp).
Proof. intros Hp. unfold Ref. by rewrite Hp. Qed.

(** The end of a handle: its block, if it has one, loses one reference. *)
Lemma release_wf σ hp x h :
  wf (mkWorld σ hp) → σ !! x = Some h →
  ∃ hp', TensorMap_destroy h hp = Some hp' ∧ wf (mkWorld (delete x σ) hp').
Proof.
  intros Hwf Hx. unfold TensorMap_destroy.
  destruct (tensors_ h) as [p|] eqn:Hh.
  - destruct (wf_live _ x h p Hwf Hx Hh) as (t & Hp & Hrefs & Hpos).
    simpl in *. destruct Hwf as [Hcount Hok]. simpl in *.
    rewrite (Unref_eq p t) by done. eexists. split; [done|].
    assert (∀ r, r ≠ p → refs r (delete x σ) = refs r σ) as Hother.
    { intros r Hr. rewrite (refs_lookup r x h σ), (ind_ne r h) by congruence.
      lia. }
    assert (Z.of_nat (refs p (delete x σ)) = ref_ t - 1)%Z as Hthis.
    { rewrite Hrefs, (refs_lookup p x h σ), (ind_eq p h) by done. lia. }
    case_decide as Hzero; split; simpl.
    + intros r. unfold rc. simpl. destruct (decide (r = p)) as [->|].
      * rewrite lookup_delete_eq. lia.
      * rewrite lookup_delete_ne, Hother by done. apply Hcount.
    + by eapply heap_ok_delete.
    + intros r. rewrite rc_set_cell. case_decide; [subst; simpl; lia|].
      rewrite Hother by done. apply Hcount.
    + eapply heap_ok_set_cell; [done..|]. simpl. lia.
  - exists hp. split; [done|]. destruct Hwf as [Hcount Hok]. split; [|done].
    simpl in *. intros r. rewrite Hcount, (refs_lookup r x h σ) by done.
    rewrite (ind_ne r h) by congruence. f_equal. lia.
Qed.

(** Copy assignment between two distinct objects: the assignee lets go of
    its block, then takes a reference on the block of [rhs]. *)
Lemma copy_assign_wf σ hp x y this rhs q p :
  wf (mkWorld σ hp) → σ !! x = Some this → σ !! y = Some rhs → x ≠ y →
  tensors_ this = Some q → tensors_ rhs = Some p →
  ∃ hp' t,
    copy_assign this rhs hp =
      Some (mkTensorMap (element_shape rhs) (element_dtype rhs)
              (max_num_elements rhs) (Some p), hp') ∧
    wf (mkWorld (<[x := mkTensorMap (element_shape rhs) (element_dtype rhs)
                         (max_num_elements rhs) (Some p)]> σ) hp') ∧
    cells hp !! p = Some t ∧
    cells hp' !! p =
      Some (mkTensors (if decide (q = p) then ref_ t else ref_ t + 1)
              (values_ t)).
Proof.
  intros Hwf Hx Hy Hxy Hq Hp.
  destruct (wf_live _ x this q Hwf Hx Hq) as (tq & Hcq & Hrq & Hposq).
  destruct (wf_live _ y rhs p Hwf Hy Hp) as (tp & Hcp & Hrp & Hposp).
  simpl in *.
  destruct (release_wf σ hp x this Hwf Hx) as (hp1 & Hrel & Hwf1).
  unfold TensorMap_destroy in Hrel. rewrite Hq in Hrel.
  assert ((delete x σ) !! y = Some rhs) as Hy1 by by rewrite lookup_delete_ne.
  destruct (wf_live _ y rhs p Hwf1 Hy1 Hp) as (t1 & Hc1 & _). simpl in *.
  pose proof (share_wf (delete x σ) hp1 x
                (mkTensorMap (element_shape rhs) (element_dtype rhs)
                   (max_num_elements rhs) (Some p)) p t1 Hwf1) as Hwf2.
  rewrite insert_delete_eq in Hwf2.
  exists (set_cell p (mkTensors (ref_ t1 + 1) (values_ t1)) hp1), tp.
  split; [|split; [|split]].
  - unfold copy_assign. rewrite Hq. simpl. rewrite Hrel. simpl.
    rewrite Hp. simpl. by rewrite (Ref_eq p t1).
  - apply Hwf2; [apply lookup_delete_eq|done..].
  - done.
  - rewrite cells_set_cell_eq. f_equal.
    rewrite (Unref_eq q tq) in Hrel by done. injection Hrel as <-.
    destruct (decide (q = p)) as [->|Hne].
    + assert (2 ≤ ref_ tq)%Z.
      { rewrite Hrq, (refs_lookup p x this σ), (ind_eq p this) by done.
        rewrite (refs_lookup p y rhs (delete x σ)), (ind_eq p rhs) by done.
        lia. }
      rewrite decide_False in Hc1 by lia.
      rewrite cells_set_cell_eq in Hc1. simplify_eq. simpl. f_equal. lia.
    + case_decide.
      * simpl in Hc1. rewrite lookup_delete_ne in Hc1 by done.
        by simplify_eq.
      * rewrite cells_set_cell_ne in Hc1 by done. by simplify_eq.
Qed.

(** Moving the block reference between two objects changes no count. *)
Lemma move_count_ok σ hp x y hx hy hx' hy' :
  count_ok σ hp → x ≠ y →
  (σ !! x = None ∧ tensors_ hx = None ∨ σ !! x = Some hx) →
  σ !! y = Some hy →
  (tensors_ hx' = tensors_ hy ∧ tensors_ hy' = tensors_ hx) →
  count_ok (<[x := hx']> (<[y := hy']> σ)) hp.
Proof.
  intros Hcount Hxy Hx Hy [Hx' Hy'] r. rewrite Hcount.
  rewrite refs_insert, delete_insert_ne, refs_insert by done.
  rewrite (ind_same_block r hx' hy), (ind_same_block r hy' hx) by done.
  f_equal. destruct Hx as [[Hx Hnull]|Hx].
  - rewrite (delete_id σ x) by done.
    rewrite (refs_lookup r y hy σ) by done.
    rewrite (ind_ne r hx) by congruence. lia.
  - rewrite (refs_lookup r x hx σ) by done.
    rewrite (refs_lookup r y hy (delete x σ)) by by rewrite lookup_delete_ne.
    lia.
Qed.

(** ** Copy and Zeros *)

Lemma Copy_eq this hp p t :
  heap_ok hp → tensors_ this = Some p → cells hp !! p = Some t →
  Copy this hp =
    Some (mkTensorMap (element_shape this) (element_dtype this)
            (max_num_elements this) (Some (next hp)),
          mkHeap (<[next hp := mkTensors 1 (values_ t)]> (cells hp))
            (Pos.succ (next hp)) (freed hp)).
Proof.
  intros Hok Hthis Hp. pose proof (next_not_live hp Hok) as Hfresh.
  assert (next hp ≠ p) as Hne by congruence.
  unfold Copy, TensorMap_new, new_Tensors, tensors, set_tensors. simpl.
  rewrite Hthis. simpl. rewrite (lookup_insert_ne _ (next hp) p) by done.
  rewrite Hp. simpl.
  rewrite lookup_insert_eq. simpl. unfold set_cell. simpl.
  by rewrite insert_insert_eq.
Qed.

Lemma elem_of_map_to_list_fst m k :
  k ∈ (map_to_list m).*1 ↔ is_Some (m !! k).
Proof.
  rewrite list_elem_of_fmap. split.
  - intros ([k' v] & -> & Hkv%elem_of_map_to_list). eauto.
  - intros [v Hk]. exists (k, v). split; [done|]. by apply elem_of_map_to_list.
Qed.

(** One [try_emplace(key, v0)] per element of a list: keys already there
    keep their value, the other keys of the list get [v0]. *)
Lemma foldl_try_emplace_lookup v0 (l : list (Key * Tensor)) m k :
  foldl (λ acc kv, (try_emplace kv.1 v0 acc).1) m l !! k =
    match m !! k with
    | Some v => Some v
    | None => if decide (k ∈ l.*1) then Some v0 else None
    end.
Proof.
  revert m. induction l as [|[k' v'] l IH]; intros m.
  - cbn [foldl]. destruct (m !! k); [done|].
    case_decide as Hin; [|done]. by apply elem_of_nil in Hin.
  - cbn [foldl]. rewrite IH. unfold try_emplace. cbn [fst].
    destruct (decide (k = k')) as [->|Hne].
    + destruct (m !! k') eqn:Hk'; cbn [fst].
      * by rewrite Hk'.
      * rewrite lookup_insert_eq.
        destruct (decide (k' ∈ ((k', v') :: l).*1)) as [Hin|Hin]; [done|].
        exfalso. apply Hin. rewrite fmap_cons. apply elem_of_cons. by left.
    + assert (k ∈ ((k', v') :: l).*1 ↔ k ∈ l.*1) as Hiff.
      { rewrite fmap_cons, elem_of_cons. cbn [fst]. tauto. }
      assert ((if decide (k ∈ ((k', v') :: l).*1) then Some v0 else None)
              = (if decide (k ∈ l.*1) then Some v0 else None)) as ->.
      { destruct (decide (k ∈ ((k', v') :: l).*1)), (decide (k ∈ l.*1));
          tauto. }
      destruct (m !! k'); cbn [fst]; [done|]. by rewrite lookup_insert_ne.
Qed.

Lemma foldl_try_emplace_zero m :
  foldl (λ acc kv, (try_emplace kv.1 Tensor_zero acc).1) ∅ (map_to_list m)
  = (λ _, Tensor_zero) <$> m.
Proof.
  apply map_eq. intros k.
  rewrite foldl_try_emplace_lookup, lookup_empty, lookup_fmap.
  destruct (m !! k) as [v|] eqn:Hk; simpl.
  - rewrite decide_True; [done|]. apply elem_of_map_to_list_fst. eauto.
  - rewrite decide_False; [done|]. rewrite elem_of_map_to_list_fst, Hk.
    by intros [? ?].
Qed.

Lemma Zeros_eq this hp p t :
  heap_ok hp → tensors_ this = Some p → cells hp !! p = Some t →
  Zeros this hp =
    Some (mkTensorMap (element_shape this) (element_dtype this)
            (max_num_elements this) (Some (next hp)),
          mkHeap (<[next hp := mkTensors 1 ((λ _, Tensor_zero) <$> values_ t)]>
                    (cells hp))
            (Pos.succ (next hp)) (freed hp)).
Proof.
  intros Hok Hthis Hp. pose proof (next_not_live hp Hok) as Hfresh.
  assert (next hp ≠ p) as Hne by congruence.
  unfold Zeros, TensorMap_new, new_Tensors, tensors, set_tensors. simpl.
  rewrite Hthis. simpl. rewrite (lookup_insert_ne _ (next hp) p) by done.
  rewrite Hp. simpl.
  rewrite lookup_insert_eq. simpl. unfold set_cell. simpl.
  by rewrite insert_insert_eq, foldl_try_emplace_zero.
Qed.

(** ** Every statement keeps the invariant *)

Lemma declare_Some x h hp w' w :
  declare x h hp w = Some w' →
  store w !! x = None ∧ w' = mkWorld (<[x := h]> (store w)) hp.
Proof.
  unfold declare. destruct (store w !! x); [done|]. by intros [= <-].
Qed.

Lemma declare_fresh x h hp w :
  store w !! x = None →
  declare x h hp w = Some (mkWorld (<[x := h]> (store w)) hp).
Proof. intros Hx. unfold declare. by rewrite Hx. Qed.

Lemma empty_world_wf : wf (empty_world (Key := Key) (Tensor := Tensor)
                             (Shape := Shape) (DType := DType)).
Proof.
  split; simpl.
  - intros p. unfold rc, refs, handles_on. simpl.
    by rewrite lookup_empty, map_filter_empty, map_size_empty.
  - split; simpl.
    + intros p t. by rewrite lookup_empty.
    + intros p [t Hp]. by rewrite lookup_empty in Hp.
    + apply NoDup_nil. done.
    + intros p Hp. by apply not_elem_of_nil in Hp.
Qed.

Lemma world_eta w : w = mkWorld (store w) (heap w).
Proof. by destruct w. Qed.

Lemma insert_undefined this hp k v :
  tensors this hp = None → insert this k v hp = None.
Proof. intros Hm. unfold insert. by rewrite Hm. Qed.

Lemma erase_undefined this hp k :
  tensors this hp = None → erase this k hp = None.
Proof. intros Hm. unfold erase. by rewrite Hm. Qed.

Lemma op_subscript_undefined this hp k :
  tensors this hp = None → op_subscript this k hp = None.
Proof.
  intros Hm. unfold op_subscript. destruct (tensors_ this); simpl; [|done].
  by rewrite Hm.
Qed.

Lemma replace_undefined this hp k v :
  tensors this hp = None → replace this k v hp = None.
Proof. intros Hm. unfold replace. by rewrite op_subscript_undefined. Qed.

Lemma tensors_undefined this hp :
  (tensors_ this = None ∨ ∃ p, tensors_ this = Some p ∧ cells hp !! p = None) →
  tensors this hp = None.
Proof.
  unfold tensors. intros [->|(p & -> & Hp)]; simpl; [done|]. by rewrite Hp.
Qed.

(** A table operation through [x]: the block of [x] gets a new table and
    keeps its count; nothing else changes. *)
Lemma table_op_exec s x w w' :
  table_op_on x s = true → exec s w = Some w' →
  ∃ this p t m,
    store w !! x = Some this ∧ tensors_ this = Some p ∧
    cells (heap w) !! p = Some t ∧
    w' = mkWorld (store w) (set_cell p (mkTensors (ref_ t) m) (heap w)).
Proof.
  intros Hop Hexec.
  destruct s; simpl in Hop; try done; apply bool_decide_eq_true in Hop;
    subst; simpl in Hexec.
  all: destruct (store w !! x0) as [this|] eqn:Hx; simpl in Hexec; [|done].
  all: destruct (tensors_ this) as [p|] eqn:Hthis;
    [destruct (cells (heap w) !! p) as [t|] eqn:Hp|].
  all: try solve [ first [ rewrite insert_undefined in Hexec
                         | rewrite replace_undefined in Hexec
                         | rewrite erase_undefined in Hexec
                         | rewrite op_subscript_undefined in Hexec ];
                   [done | apply tensors_undefined; eauto] ].
  - rewrite (insert_eq _ _ p t) in Hexec by done. simpl in Hexec.
    injection Hexec as <-. by eexists this, p, t, _.
  - rewrite (replace_eq _ _ p t) in Hexec by done. simpl in Hexec.
    injection Hexec as <-. by eexists this, p, t, _.
  - rewrite (erase_eq _ _ p t) in Hexec by done. simpl in Hexec.
    injection Hexec as <-. by eexists this, p, t, _.
  - rewrite (op_subscript_eq _ _ p t) in Hexec by done. simpl in Hexec.
    injection Hexec as <-. by eexists this, p, t, _.
Qed.

Lemma set_header_wf σ hp x h h' :
  wf (mkWorld σ hp) → σ !! x = Some h → tensors_ h' = tensors_ h →
  wf (mkWorld (<[x := h']> σ) hp).
Proof.
  intros [Hcount Hok] Hx Hsame. split; [|done]. simpl in *.
  intros r. rewrite Hcount, refs_insert, (refs_lookup r x h σ) by done.
  by rewrite (ind_same_block r h' h).
Qed.

Lemma exec_wf s w w' : wf w → exec s w = Some w' → wf w'.
Proof.
  intros Hwf Hexec. pose proof Hwf as Hwf'. rewrite (world_eta w) in Hwf'.
  destruct s as [x|x y|x y|x y|x y|x|x y|x y|x k v|x k v|x k|x k|x sh d n];
    simpl in Hexec.
  - (* TensorMap x; *)
    apply declare_Some in Hexec as [Hx ->]. by apply alloc_wf.
  - (* TensorMap x(y); *)
    destruct (store w !! y) as [other|] eqn:Hy; simpl in Hexec; [|done].
    unfold TensorMap_copy in Hexec.
    destruct (tensors_ other) as [p|] eqn:Hp; simpl in Hexec; [|done].
    destruct (wf_live w y other p) as (t & Hc & _); [done..|].
    rewrite (Ref_eq p t) in Hexec by done. simpl in Hexec.
    apply declare_Some in Hexec as [Hx ->]. by apply share_wf.
  - (* TensorMap x(std::move(y)); *)
    destruct (store w !! y) as [rhs|] eqn:Hy; simpl in Hexec; [|done].
    apply declare_Some in Hexec as [Hx ->]. simpl in Hx.
    apply lookup_insert_None in Hx as [Hx Hyx].
    destruct Hwf' as [Hcount Hok]. split; [|done]. simpl in *.
    eapply (move_count_ok _ _ x y
              (mkTensorMap (element_shape rhs) (element_dtype rhs)
                 (max_num_elements rhs) None)); eauto.
  - (* x = y; *)
    destruct (store w !! x) as [this|] eqn:Hx; simpl in Hexec; [|done].
    destruct (store w !! y) as [rhs|] eqn:Hy; simpl in Hexec; [|done].
    case_decide as Hxy; [by simplify_eq|].
    destruct (tensors_ this) as [q|] eqn:Hq;
      [|unfold copy_assign in Hexec; by rewrite Hq in Hexec].
    destruct (tensors_ rhs) as [p|] eqn:Hp.
    + destruct (copy_assign_wf _ _ x y this rhs q p Hwf') as (hp' & t & Heq & Hwf2 & _);
        [done..|].
      rewrite Heq in Hexec. simpl in Hexec. by simplify_eq.
    + unfold copy_assign in Hexec. rewrite Hq, Hp in Hexec. simpl in Hexec.
      by destruct (Unref q (heap w)).
  - (* x = std::move(y); *)
    destruct (store w !! x) as [this|] eqn:Hx; simpl in Hexec; [|done].
    destruct (store w !! y) as [rhs|] eqn:Hy; simpl in Hexec; [|done].
    case_decide as Hxy; [by simplify_eq|]. injection Hexec as <-.
    destruct Hwf' as [Hcount Hok]. split; [|done]. simpl in *.
    eapply (move_count_ok _ _ x y this rhs); eauto.
  - (* the lifetime of x ends *)
    destruct (store w !! x) as [this|] eqn:Hx; simpl in Hexec; [|done].
    destruct (release_wf _ _ x this Hwf' Hx) as (hp' & Hrel & Hwf2).
    rewrite Hrel in Hexec. simpl in Hexec. by simplify_eq.
  - (* TensorMap x = y.Copy(); *)
    destruct (store w !! y) as [this|] eqn:Hy; simpl in Hexec; [|done].
    destruct (tensors_ this) as [p|] eqn:Hp.
    + destruct (wf_live w y this p) as (t & Hc & _); [done..|].
      rewrite (Copy_eq _ _ p t) in Hexec by (done || apply Hwf).
      simpl in Hexec. apply declare_Some in Hexec as [Hx ->].
      by apply alloc_wf.
    + unfold Copy, tensors in Hexec. simpl in Hexec. by rewrite Hp in Hexec.
  - (* TensorMap x = y.Zeros(); *)
    destruct (store w !! y) as [this|] eqn:Hy; simpl in Hexec; [|done].
    destruct (tensors_ this) as [p|] eqn:Hp.
    + destruct (wf_live w y this p) as (t & Hc & _); [done..|].
      rewrite (Zeros_eq _ _ p t) in Hexec by (done || apply Hwf).
      simpl in Hexec. apply declare_Some in Hexec as [Hx ->].
      by apply alloc_wf.
    + unfold Zeros, tensors in Hexec. simpl in Hexec. by rewrite Hp in Hexec.
  - destruct (table_op_exec (SInsert x k v) x w w')
      as (this & p & t & m & _ & _ & Hp & ->); [by apply bool_decide_eq_true|done|].
    by apply table_update_wf.
  - destruct (table_op_exec (SReplace x k v) x w w')
      as (this & p & t & m & _ & _ & Hp & ->); [by apply bool_decide_eq_true|done|].
    by apply table_update_wf.
  - destruct (table_op_exec (SErase x k) x w w')
      as (this & p & t & m & _ & _ & Hp & ->); [by apply bool_decide_eq_true|done|].
    by apply table_update_wf.
  - destruct (table_op_exec (SSubscript x k) x w w')
      as (this & p & t & m & _ & _ & Hp & ->); [by apply bool_decide_eq_true|done|].
    by apply table_update_wf.
  - (* the header fields of x are assigned *)
    destruct (store w !! x) as [this|] eqn:Hx; simpl in Hexec; [|done].
    injection Hexec as <-. by eapply set_header_wf.
Qed.

Lemma run_wf prog w w' : wf w → run prog w = Some w' → wf w'.
Proof.
  revert w. induction prog as [|s prog IH]; intros w Hwf Hrun; simpl in Hrun.
  - by simplify_eq.
  - destruct (exec s w) as [w1|] eqn:Hexec; simpl in Hrun; [|done].
    eapply IH; [|done]. by eapply exec_wf.
Qed.

(** Every world a program reaches from the empty world is well formed. *)
Lemma reachable_wf prog w : run prog empty_world = Some w → wf w.
Proof. apply run_wf, empty_world_wf. Qed.

Lemma run_cons s prog w : run (s :: prog) w = exec s w ≫= run prog.
Proof. done. Qed.

(** ** Table operations through one handle *)

Lemma table_op_defined s x w this p t :
  table_op_on x s = true → store w !! x = Some this →
  tensors_ this = Some p → cells (heap w) !! p = Some t →
  ∃ m, exec s w =
         Some (mkWorld (store w) (set_cell p (mkTensors (ref_ t) m) (heap w))).
Proof.
  intros Hop Hx Hthis Hp.
  destruct s; simpl in Hop; try done; apply bool_decide_eq_true in Hop;
    subst; simpl; rewrite Hx; simpl.
  - rewrite (insert_eq _ _ p t) by done. simpl. eauto.
  - rewrite (replace_eq _ _ p t) by done. simpl. eauto.
  - rewrite (erase_eq _ _ p t) by done. simpl. eauto.
  - rewrite (op_subscript_eq _ _ p t) by done. simpl. eauto.
Qed.

(** Table operations through a handle on block [q] always run, and change
    nothing but the table of [q]: every handle, every other block and the
    count of [q] are as before. *)
Lemma table_ops_frame ops x w this q tq :
  table_ops_on x ops → store w !! x = Some this →
  tensors_ this = Some q → cells (heap w) !! q = Some tq →
  ∃ w' m, run ops w = Some w' ∧ store w' = store w ∧
    cells (heap w') !! q = Some (mkTensors (ref_ tq) m) ∧
    (∀ r, r ≠ q → cells (heap w') !! r = cells (heap w) !! r) ∧
    next (heap w') = next (heap w) ∧ freed (heap w') = freed (heap w).
Proof.
  intros Hops. revert w tq.
  induction Hops as [|s ops Hs Hops IH]; intros w tq Hx Hthis Hq; simpl.
  - exists w, (values_ tq). destruct tq. done.
  - destruct (table_op_defined s x w this q tq) as [m ->]; [done..|]. simpl.
    destruct (IH (mkWorld (store w)
                    (set_cell q (mkTensors (ref_ tq) m) (heap w)))
                 (mkTensors (ref_ tq) m))
      as (w' & m' & Hrun & Hstore & Hcq & Hframe & Hnext & Hfreed);
      [done|done|apply cells_set_cell_eq|].
    exists w', m'. simpl in *. repeat split; try done.
    intros r Hr. rewrite Hframe by done. by apply cells_set_cell_ne.
Qed.

Lemma table_of_eq x w this p t :
  store w !! x = Some this → tensors_ this = Some p →
  cells (heap w) !! p = Some t → table_of x w = Some (values_ t).
Proof.
  intros Hx Hthis Hp. unfold table_of. rewrite Hx. simpl.
  apply tensors_Some. eauto.
Qed.

Lemma block_of_eq x w this :
  store w !! x = Some this → block_of x w = tensors_ this.
Proof. intros Hx. unfold block_of. by rewrite Hx. Qed.


(** An insertion through one of two objects on the same block is seen
    through the other. *)
Lemma insert_through_alias x y w hx hy p t k v :
  store w !! x = Some hx → store w !! y = Some hy →
  tensors_ hx = Some p → tensors_ hy = Some p →
  cells (heap w) !! p = Some t → values_ t !! k = None →
  ∃ w', exec (SInsert x k v) w = Some w' ∧
    table_of y w' = Some (<[k := v]> (values_ t)) ∧
    table_of x w' = Some (<[k := v]> (values_ t)).
Proof.
  intros Hx Hy Hpx Hpy Hp Hk. simpl. rewrite Hx. simpl.
  rewrite (insert_eq _ _ p t), try_emplace_absent by done. simpl.
  eexists. split; [done|]. split.
  - erewrite (table_of_eq y _ hy p); [|done|done|apply lookup_insert_eq]. done.
  - erewrite (table_of_eq x _ hx p); [|done|done|apply lookup_insert_eq]. done.
Qed.

(** ** Plain copies share their block *)



(** ** Derived copies own their block *)

Lemma derived_copy_intro w a b ha hb p t m :
  wf w → store w !! a = Some ha → tensors_ ha = Some p →
  cells (heap w) !! p = Some t → store w !! b = None →
  tensors_ hb = Some (next (heap w)) → header hb = header ha →
  derived_copy w
    (mkWorld (<[b := hb]> (store w))
       (mkHeap (<[next (heap w) := mkTensors 1 m]> (cells (heap w)))
          (Pos.succ (next (heap w))) (freed (heap w))))
    a b p (next (heap w)) t m.
Proof.
  intros Hwf Ha Hpa Hp Hb Hpb Hhdr.
  pose proof (next_not_live _ (proj2 Hwf)) as Hfresh.
  assert (next (heap w) ≠ p) as Hne by congruence.
  assert (a ≠ b) as Hab by congruence.
  set (w' := mkWorld _ _).
  assert (store w' !! a = Some ha) as Ha' by (simpl; by rewrite lookup_insert_ne).
  assert (store w' !! b = Some hb) as Hb' by (simpl; apply lookup_insert_eq).
  assert (cells (heap w') !! p = Some t) as Hp'
    by (simpl; by rewrite lookup_insert_ne).
  assert (cells (heap w') !! next (heap w) = Some (mkTensors 1 m)) as Hq'
    by (simpl; apply lookup_insert_eq).
  unfold derived_copy. split; [|split; [|split; [|split; [|split; [|split; [|split]]]]]].
  - repeat split; try done.
    + intros Hin. destruct (ok_freed _ (proj2 Hwf) _ Hin). lia.
    + intros x Hx. unfold block_of in Hx.
      destruct (store w !! x) as [hx|] eqn:Hsx; simpl in Hx; [|done].
      destruct (wf_live w x hx _ Hwf Hsx Hx) as (tx & Hcx & _). congruence.
  - by rewrite (block_of_eq b w' hb).
  - done.
  - unfold header_of. rewrite Hb', Ha. simpl. by rewrite Hhdr.
  - by rewrite Ha'.
  - done.
  - intros ops Hops.
    destruct (table_ops_frame ops b w' hb _ _ Hops Hb' Hpb Hq')
      as (w'' & m' & Hrun & Hstore & _ & Hframe & _).
    exists w''. split; [done|].
    assert (store w'' !! a = Some ha) as Ha'' by by rewrite Hstore.
    assert (cells (heap w'') !! p = Some t) as Hp'' by by rewrite Hframe.
    split; [by eapply table_of_eq|]. split; [|done].
    by rewrite (block_of_eq a w'' ha).
  - intros ops Hops.
    destruct (table_ops_frame ops a w' ha _ _ Hops Ha' Hpa Hp')
      as (w'' & m' & Hrun & Hstore & _ & Hframe & _).
    exists w''. split; [done|].
    assert (store w'' !! b = Some hb) as Hb'' by by rewrite Hstore.
    assert (cells (heap w'') !! next (heap w) = Some (mkTensors 1 m)) as Hq''
      by by rewrite Hframe.
    split; [|split; [|done]].
    + by rewrite (table_of_eq b w'' hb _ _ Hb'' Hpb Hq'').
    + by rewrite (block_of_eq b w'' hb).
Qed.

(** C2: [b = a.Copy()] gives [b] a storage of its own.  In a world reached
    by a program, let [a] be on block [p] holding [t].  Then [Copy] runs;
    the block of [b] is new and holds, with count 1, the very table of [a];
    the header fields of [b] are those of [a]; [a] and its block are
    untouched; and whatever insertions, erasures, replacements or
    subscriptings run through [b], the table of [a] stays what it was, and
    the other way round. *)
Theorem Copy_is_isolated prog w a b ha p t :
  run prog empty_world = Some w →
  store w !! a = Some ha → tensors_ ha = Some p →
  cells (heap w) !! p = Some t → store w !! b = None →
  ∃ w' q, exec (SCopy b a) w = Some w' ∧
    derived_copy w w' a b p q t (values_ t).
Proof.
  intros Hrun Ha Hpa Hp Hb. pose proof (reachable_wf _ _ Hrun) as Hwf.
  simpl. rewrite Ha. simpl.
  rewrite (Copy_eq _ _ p t) by (done || apply Hwf). simpl.
  rewrite declare_fresh by done. eexists _, _. split; [done|].
  by apply (derived_copy_intro w a b ha).
Qed.

(** C7: [m.Zeros()] has the keys of [m], each with the zero tensor, in a
    storage of its own.  In a world reached by a program, let [a] be on
    block [p] holding [t].  Then [Zeros] runs; the block of [b] is new and
    holds, with count 1, a table with exactly the keys of the table of [a],
    every one of them mapped to [Tensor(0)]; the header fields of [b] are
    those of [a]; [a] and its block are untouched; and table operations
    through one of the two objects never change the table of the other. *)
Theorem Zeros_same_keys_isolated prog w a b ha p t :
  run prog empty_world = Some w →
  store w !! a = Some ha → tensors_ ha = Some p →
  cells (heap w) !! p = Some t → store w !! b = None →
  ∃ w' q m0, exec (SZeros b a) w = Some w' ∧
    derived_copy w w' a b p q t m0 ∧
    dom m0 = dom (values_ t) ∧
    (∀ k, m0 !! k = (λ _, Tensor_zero) <$> values_ t !! k) ∧
    (∀ k v, m0 !! k = Some v → v = Tensor_zero) ∧
    size m0 = size (values_ t).
Proof.
  intros Hrun Ha Hpa Hp Hb. pose proof (reachable_wf _ _ Hrun) as Hwf.
  simpl. rewrite Ha. simpl.
  rewrite (Zeros_eq _ _ p t) by (done || apply Hwf). simpl.
  rewrite declare_fresh by done. eexists _, _, _. split; [done|].
  split; [by apply (derived_copy_intro w a b ha)|].
  split; [apply dom_fmap_L|]. split; [intros k; apply lookup_fmap|].
  split; [|apply map_size_fmap].
  intros k v. rewrite lookup_fmap. destruct (values_ t !! k); simpl; congruence.
Qed.

(** ** Reference counts *)

Lemma block_of_Some x w p :
  block_of x w = Some p ↔ ∃ h, store w !! x = Some h ∧ tensors_ h = Some p.
Proof.
  unfold block_of. split.
  - destruct (store w !! x) as [h|]; simpl; [eauto|done].
  - intros (h & -> & Hp). done.
Qed.

Lemma count_of_eq x w h p t :
  store w !! x = Some h → tensors_ h = Some p →
  cells (heap w) !! p = Some t → count_of x w = Some (ref_ t).
Proof.
  intros Hx Hh Hp. unfold count_of. rewrite (block_of_eq x w h) by done.
  rewrite Hh. simpl. by rewrite Hp.
Qed.

Lemma count_of_Some x w c :
  count_of x w = Some c →
  ∃ h p t, store w !! x = Some h ∧ tensors_ h = Some p ∧
           cells (heap w) !! p = Some t ∧ ref_ t = c.
Proof.
  unfold count_of. intros Hc.
  destruct (block_of x w) as [p|] eqn:Hb; simpl in Hc; [|done].
  apply block_of_Some in Hb as (h & Hx & Hh).
  destruct (cells (heap w) !! p) as [t|] eqn:Hp; simpl in Hc; [|done].
  exists h, p, t. by simplify_eq.
Qed.

Lemma RefCountIsOne_of_eq x w h p t :
  store w !! x = Some h → tensors_ h = Some p →
  cells (heap w) !! p = Some t →
  RefCountIsOne_of x w = Some (bool_decide (ref_ t = 1%Z)).
Proof.
  intros Hx Hh Hp. unfold RefCountIsOne_of, RefCountIsOne, Tensors_RefCountIsOne.
  rewrite Hx. simpl. rewrite Hh. simpl. by rewrite Hp.
Qed.

Lemma decl_spec x w :
  store w !! x = None →
  exec (SDecl x) w =
    Some (mkWorld
            (<[x := mkTensorMap Shape_default DType_uninit (-1)
                      (Some (next (heap w)))]> (store w))
            (mkHeap (<[next (heap w) := mkTensors 1 ∅]> (cells (heap w)))
               (Pos.succ (next (heap w))) (freed (heap w)))).
Proof. intros Hx. simpl. by rewrite declare_fresh. Qed.

Lemma copy_ctor_spec x y w hy p t :
  store w !! x = None → store w !! y = Some hy → tensors_ hy = Some p →
  cells (heap w) !! p = Some t →
  exec (SCopyCtor x y) w =
    Some (mkWorld
            (<[x := mkTensorMap (element_shape hy) (element_dtype hy)
                      (max_num_elements hy) (Some p)]> (store w))
            (set_cell p (mkTensors (ref_ t + 1) (values_ t)) (heap w))).
Proof.
  intros Hx Hy Hp Hc. simpl. rewrite Hy. simpl. unfold TensorMap_copy.
  rewrite Hp. simpl. rewrite (Ref_eq p t) by done. simpl.
  by rewrite declare_fresh.
Qed.

Lemma destroy_spec x w h p t :
  store w !! x = Some h → tensors_ h = Some p →
  cells (heap w) !! p = Some t →
  exec (SDestroy x) w =
    Some (mkWorld (delete x (store w))
            (if decide (ref_ t - 1 = 0)%Z
             then mkHeap (delete p (cells (heap w))) (next (heap w))
                    (p :: freed (heap w))
             else set_cell p (mkTensors (ref_ t - 1) (values_ t)) (heap w))).
Proof.
  intros Hx Hh Hp. simpl. rewrite Hx. simpl. unfold TensorMap_destroy.
  rewrite Hh, (Unref_eq p t) by done. done.
Qed.

Lemma destroy_null_spec x w h :
  store w !! x = Some h → tensors_ h = None →
  exec (SDestroy x) w = Some (mkWorld (delete x (store w)) (heap w)).
Proof.
  intros Hx Hh. simpl. rewrite Hx. simpl. unfold TensorMap_destroy.
  by rewrite Hh.
Qed.

(** A statement deletes at most one block, and only a block whose count
    was 1: the deletion is the moment the count reaches zero. *)
Lemma exec_freed s w w' :
  wf w → exec s w = Some w' →
  freed (heap w') = freed (heap w) ∨
  ∃ p t, cells (heap w) !! p = Some t ∧ ref_ t = 1%Z ∧
         cells (heap w') !! p = None ∧
         freed (heap w') = p :: freed (heap w).
Proof.
  intros Hwf Hexec.
  destruct s as [x|x y|x y|x y|x y|x|x y|x y|x k v|x k v|x k|x k|x sh d n].
  - simpl in Hexec. apply declare_Some in Hexec as [_ ->]. by left.
  - simpl in Hexec.
    destruct (store w !! y) as [other|] eqn:Hy; simpl in Hexec; [|done].
    unfold TensorMap_copy, Ref in Hexec.
    destruct (tensors_ other) as [p|]; simpl in Hexec; [|done].
    destruct (cells (heap w) !! p) as [t|]; simpl in Hexec; [|done].
    apply declare_Some in Hexec as [_ ->]. by left.
  - simpl in Hexec.
    destruct (store w !! y) as [rhs|] eqn:Hy; simpl in Hexec; [|done].
    apply declare_Some in Hexec as [_ ->]. by left.
  - simpl in Hexec.
    destruct (store w !! x) as [this|] eqn:Hx; simpl in Hexec; [|done].
    destruct (store w !! y) as [rhs|] eqn:Hy; simpl in Hexec; [|done].
    case_decide as Hxy; [simplify_eq; by left|].
    unfold copy_assign in Hexec.
    destruct (tensors_ this) as [q|] eqn:Hq; simpl in Hexec; [|done].
    destruct (cells (heap w) !! q) as [tq|] eqn:Hcq;
      [|unfold Unref in Hexec; by rewrite Hcq in Hexec].
    rewrite (Unref_eq q tq) in Hexec by done. simpl in Hexec.
    destruct (tensors_ rhs) as [p|] eqn:Hp; simpl in Hexec; [|done].
    unfold Ref in Hexec. case_decide as Hzero.
    + simpl in Hexec.
      destruct (delete q (cells (heap w)) !! p) as [t1|] eqn:Hc1;
        simpl in Hexec; [|done].
      injection Hexec as <-. right. exists q, tq. simpl.
      split; [done|]. split; [lia|]. split; [|done].
      assert (p ≠ q) as Hne by (intros ->; by rewrite lookup_delete_eq in Hc1).
      rewrite lookup_insert_ne by done. apply lookup_delete_eq.
    + destruct (cells (set_cell q (mkTensors (ref_ tq - 1) (values_ tq))
                         (heap w)) !! p) as [t1|]; simpl in Hexec; [|done].
      injection Hexec as <-. by left.
  - simpl in Hexec.
    destruct (store w !! x) as [this|] eqn:Hx; simpl in Hexec; [|done].
    destruct (store w !! y) as [rhs|] eqn:Hy; simpl in Hexec; [|done].
    case_decide; simplify_eq; by left.
  - simpl in Hexec.
    destruct (store w !! x) as [this|] eqn:Hx; simpl in Hexec; [|done].
    unfold TensorMap_destroy in Hexec.
    destruct (tensors_ this) as [p|] eqn:Hp; simpl in Hexec;
      [|injection Hexec as <-; by left].
    destruct (cells (heap w) !! p) as [t|] eqn:Hc;
      [|unfold Unref in Hexec; by rewrite Hc in Hexec].
    rewrite (Unref_eq p t) in Hexec by done. simpl in Hexec.
    injection Hexec as <-. simpl. case_decide; [|by left].
    right. exists p, t. simpl. split; [done|]. split; [lia|].
    split; [apply lookup_delete_eq|done].
  - simpl in Hexec.
    destruct (store w !! y) as [this|] eqn:Hy; simpl in Hexec; [|done].
    destruct (tensors_ this) as [p|] eqn:Hp.
    + destruct (wf_live w y this p) as (t & Hc & _); [done..|].
      rewrite (Copy_eq _ _ p t) in Hexec by (done || apply Hwf).
      simpl in Hexec. apply declare_Some in Hexec as [_ ->]. by left.
    + unfold Copy, tensors in Hexec. simpl in Hexec. by rewrite Hp in Hexec.
  - simpl in Hexec.
    destruct (store w !! y) as [this|] eqn:Hy; simpl in Hexec; [|done].
    destruct (tensors_ this) as [p|] eqn:Hp.
    + destruct (wf_live w y this p) as (t & Hc & _); [done..|].
      rewrite (Zeros_eq _ _ p t) in Hexec by (done || apply Hwf).
      simpl in Hexec. apply declare_Some in Hexec as [_ ->]. by left.
    + unfold Zeros, tensors in Hexec. simpl in Hexec. by rewrite Hp in Hexec.
  - destruct (table_op_exec (SInsert x k v) x w w')
      as (this & p & t & m & _ & _ & Hp & ->);
      [by apply bool_decide_eq_true|done|by left].
  - destruct (table_op_exec (SReplace x k v) x w w')
      as (this & p & t & m & _ & _ & Hp & ->);
      [by apply bool_decide_eq_true|done|by left].
  - destruct (table_op_exec (SErase x k) x w w')
      as (this & p & t & m & _ & _ & Hp & ->);
      [by apply bool_decide_eq_true|done|by left].
  - destruct (table_op_exec (SSubscript x k) x w w')
      as (this & p & t & m & _ & _ & Hp & ->);
      [by apply bool_decide_eq_true|done|by left].
  - simpl in Hexec.
    destruct (store w !! x) as [this|] eqn:Hx; simpl in Hexec; [|done].
    injection Hexec as <-. by left.
Qed.

(** The handle [x] on block [p] is counted alone exactly when no other
    live handle is on [p]. *)
Lemma only_handle_iff σ x h p :
  σ !! x = Some h → tensors_ h = Some p →
  refs p σ = 1%nat ↔ ∀ y hy, σ !! y = Some hy → tensors_ hy = Some p → y = x.
Proof.
  intros Hx Hh. rewrite (refs_lookup p x h σ), (ind_eq p h) by done.
  unfold refs. split.
  - intros Hone y hy Hy Hhy. destruct (decide (y = x)) as [|Hne]; [done|].
    assert (handles_on p (delete x σ) = ∅) as Hempty
      by (apply map_size_empty_iff; lia).
    assert (handles_on p (delete x σ) !! y = Some hy) as Hin.
    { apply map_lookup_filter_Some. split; [|done].
      by rewrite lookup_delete_ne. }
    rewrite Hempty, lookup_empty in Hin. done.
  - intros Honly.
    assert (handles_on p (delete x σ) = ∅) as ->; [|by rewrite map_size_empty].
    apply map_empty. intros y. apply map_lookup_filter_None_2. right.
    intros hy [Hne Hy]%lookup_delete_Some Hhy. simpl in Hhy.
    by specialize (Honly y hy Hy Hhy).
Qed.

(** C3: reference-count accounting.  In every world reached by a program:
    a default-constructed handle owns a new, empty block with count 1;
    copy-constructing from a handle adds exactly one to the count of its
    block; destroying a handle subtracts one, and deletes the block exactly
    when that makes the count zero, logging the deletion, while destroying a
    moved-from handle leaves the heap alone; a copy assignment is the
    release that a destruction does followed by the copy that a copy
    construction does; the count of every block is the
    number of live handles on it, at least one; no block is deleted twice,
    no live handle points to a deleted block, and a statement deletes a
    block only when it takes its count from 1 to 0; [RefCountIsOne()] is
    defined on every handle that has a block and returns [true] exactly when
    no other live handle is on that block.  In particular, after [a] is
    default-constructed (count 1) and copied into [b] (count 2), destroying
    [b] makes [a.RefCountIsOne()] true again. *)
Theorem refcount_accounting prog w :
  run prog empty_world = Some w →
  (∀ x, store w !! x = None →
     ∃ w', exec (SDecl x) w = Some w' ∧
       block_of x w' = Some (next (heap w)) ∧
       cells (heap w) !! next (heap w) = None ∧
       table_of x w' = Some ∅ ∧
       count_of x w' = Some 1%Z ∧ RefCountIsOne_of x w' = Some true) ∧
  (∀ x y c, store w !! x = None → count_of y w = Some c →
     ∃ w', exec (SCopyCtor x y) w = Some w' ∧
       block_of x w' = block_of y w ∧ block_of y w' = block_of y w ∧
       count_of y w' = Some (c + 1)%Z ∧ count_of x w' = Some (c + 1)%Z) ∧
  (∀ x p c, block_of x w = Some p → count_of x w = Some c →
     ∃ w', exec (SDestroy x) w = Some w' ∧
       store w' = delete x (store w) ∧
       if decide (c - 1 = 0)%Z
       then cells (heap w') !! p = None ∧
            freed (heap w') = p :: freed (heap w)
       else (∃ t', cells (heap w') !! p = Some t' ∧ ref_ t' = (c - 1)%Z) ∧
            freed (heap w') = freed (heap w)) ∧
  (∀ x, is_Some (store w !! x) → block_of x w = None →
     exec (SDestroy x) w = Some (mkWorld (delete x (store w)) (heap w))) ∧
  (∀ this rhs hp, is_Some (tensors_ this) →
     copy_assign this rhs hp = TensorMap_destroy this hp ≫= TensorMap_copy rhs) ∧
  (∀ p t, cells (heap w) !! p = Some t →
     ref_ t = Z.of_nat (refs p (store w)) ∧ (1 ≤ ref_ t)%Z) ∧
  NoDup (freed (heap w)) ∧
  (∀ p, p ∈ freed (heap w) →
     cells (heap w) !! p = None ∧ ∀ x, block_of x w ≠ Some p) ∧
  (∀ s w', exec s w = Some w' →
     freed (heap w') = freed (heap w) ∨
     ∃ p t, cells (heap w) !! p = Some t ∧ ref_ t = 1%Z ∧
            cells (heap w') !! p = None ∧
            freed (heap w') = p :: freed (heap w)) ∧
  (∀ x p, block_of x w = Some p →
     ∃ r, RefCountIsOne_of x w = Some r ∧
          (r = true ↔ ∀ y, block_of y w = Some p → y = x)) ∧
  (∀ a b, a ≠ b → store w !! a = None → store w !! b = None →
     ∃ w1 w2 w3,
       exec (SDecl a) w = Some w1 ∧ count_of a w1 = Some 1%Z ∧
       exec (SCopyCtor b a) w1 = Some w2 ∧ count_of a w2 = Some 2%Z ∧
       count_of b w2 = Some 2%Z ∧ RefCountIsOne_of a w2 = Some false ∧
       exec (SDestroy b) w2 = Some w3 ∧ count_of a w3 = Some 1%Z ∧
       RefCountIsOne_of a w3 = Some true).
Proof.
  intros Hrun. pose proof (reachable_wf _ _ Hrun) as Hwf.
  pose proof Hwf as [Hcount Hok].
  split; [|split; [|split; [|split; [|split; [|split; [|split; [|split;
    [|split; [|split]]]]]]]]].
  - intros x Hx. rewrite decl_spec by done. eexists. split; [done|].
    set (h0 := mkTensorMap _ _ _ _). set (w' := mkWorld _ _).
    assert (store w' !! x = Some h0) as Hx' by apply lookup_insert_eq.
    assert (cells (heap w') !! next (heap w) = Some (mkTensors 1 ∅)) as Hc'
      by apply lookup_insert_eq.
    split; [by rewrite (block_of_eq x w' h0)|].
    split; [by apply next_not_live|].
    split; [by rewrite (table_of_eq x w' h0 _ _ Hx' eq_refl Hc')|].
    split; [by rewrite (count_of_eq x w' h0 _ _ Hx' eq_refl Hc')|].
    by rewrite (RefCountIsOne_of_eq x w' h0 _ _ Hx' eq_refl Hc').
  - intros x y c Hx (hy & p & t & Hy & Hp & Hc & <-)%count_of_Some.
    assert (x ≠ y) as Hxy by congruence.
    rewrite (copy_ctor_spec x y w hy p t) by done. eexists. split; [done|].
    set (hx := mkTensorMap _ _ _ _). set (w' := mkWorld _ _).
    assert (store w' !! x = Some hx) as Hx' by apply lookup_insert_eq.
    assert (store w' !! y = Some hy) as Hy'
      by (simpl; by rewrite lookup_insert_ne).
    assert (cells (heap w') !! p = Some (mkTensors (ref_ t + 1) (values_ t)))
      as Hc' by apply lookup_insert_eq.
    rewrite (block_of_eq x w' hx), (block_of_eq y w' hy),
      (block_of_eq y w hy) by done.
    rewrite (count_of_eq y w' hy _ _ Hy' Hp Hc').
    by rewrite (count_of_eq x w' hx _ _ Hx' eq_refl Hc').
  - intros x p c (h & Hx & Hp)%block_of_Some
      (h' & p' & t & Hx' & Hp' & Hc & <-)%count_of_Some.
    simplify_eq. rewrite (destroy_spec x w h p t) by done.
    eexists. split; [done|]. split; [done|]. simpl.
    case_decide; simpl.
    + split; [apply lookup_delete_eq|done].
    + split; [|done]. eexists. split; [apply lookup_insert_eq|done].
  - intros x [h Hx] Hnull. apply destroy_null_spec with h; [done|].
    by rewrite (block_of_eq x w h) in Hnull.
  - intros this rhs hp [q Hq].
    unfold copy_assign, TensorMap_destroy, TensorMap_copy. rewrite Hq. simpl.
    by destruct (Unref q hp).
  - intros p t Hp. specialize (Hcount p). rewrite (rc_live p t) in Hcount by done.
    split; [done|]. by apply (ok_pos _ Hok p).
  - apply Hok.
  - intros p Hin. destruct (ok_freed _ Hok p Hin) as [Hnone _].
    split; [done|]. intros x (h & Hx & Hp)%block_of_Some.
    destruct (wf_live w x h p Hwf Hx Hp) as (t & Hc & _). congruence.
  - intros s w' Hexec. by apply (exec_freed s).
  - intros x p (h & Hx & Hp)%block_of_Some.
    destruct (wf_live w x h p Hwf Hx Hp) as (t & Hc & Hrefs & _).
    rewrite (RefCountIsOne_of_eq x w h p t) by done. eexists. split; [done|].
    rewrite bool_decide_eq_true, Hrefs.
    assert (Z.of_nat (refs p (store w)) = 1%Z ↔ refs p (store w) = 1%nat)
      as -> by lia.
    rewrite (only_handle_iff (store w) x h p) by done.
    split.
    + intros Honly y (hy & Hy & Hpy)%block_of_Some. by eapply Honly.
    + intros Honly y hy Hy Hpy. apply Honly. apply block_of_Some. eauto.
  - intros a b Hab Ha Hb.
    set (n := next (heap w)).
    set (h0 := mkTensorMap Shape_default DType_uninit (-1)%Z (Some n)).
    pose (w1 := mkWorld (<[a := h0]> (store w))
                  (mkHeap (<[n := mkTensors 1 ∅]> (cells (heap w)))
                     (Pos.succ n) (freed (heap w)))).
    pose (w2 := mkWorld (<[b := h0]> (store w1))
                  (set_cell n (mkTensors 2 ∅) (heap w1))).
    pose (w3 := mkWorld (delete b (store w2))
                  (set_cell n (mkTensors 1 ∅) (heap w2))).
    assert (store w1 !! a = Some h0) as Ha1 by apply lookup_insert_eq.
    assert (store w1 !! b = None) as Hb1 by (simpl; by rewrite lookup_insert_ne).
    assert (cells (heap w1) !! n = Some (mkTensors 1 ∅)) as Hc1
      by apply lookup_insert_eq.
    assert (store w2 !! a = Some h0) as Ha2 by (simpl; by rewrite lookup_insert_ne).
    assert (store w2 !! b = Some h0) as Hb2 by apply lookup_insert_eq.
    assert (cells (heap w2) !! n = Some (mkTensors 2 ∅)) as Hc2
      by apply lookup_insert_eq.
    assert (store w3 !! a = Some h0) as Ha3 by (simpl; by rewrite lookup_delete_ne).
    assert (cells (heap w3) !! n = Some (mkTensors 1 ∅)) as Hc3
      by apply lookup_insert_eq.
    exists w1, w2, w3.
    rewrite (count_of_eq a w1 h0 n _ Ha1 eq_refl Hc1).
    rewrite (count_of_eq a w2 h0 n _ Ha2 eq_refl Hc2).
    rewrite (count_of_eq b w2 h0 n _ Hb2 eq_refl Hc2).
    rewrite (count_of_eq a w3 h0 n _ Ha3 eq_refl Hc3).
    rewrite (RefCountIsOne_of_eq a w2 h0 n _ Ha2 eq_refl Hc2).
    rewrite (RefCountIsOne_of_eq a w3 h0 n _ Ha3 eq_refl Hc3).
    rewrite (decl_spec a w Ha).
    rewrite (copy_ctor_spec b a w1 h0 n (mkTensors 1 ∅) Hb1 Ha1 eq_refl Hc1).
    rewrite (destroy_spec b w2 h0 n (mkTensors 2 ∅) Hb2 eq_refl Hc2).
    done.
Qed.

(** ** Moves *)

Lemma table_op_null s y w h :
  table_op_on y s = true → store w !! y = Some h → tensors_ h = None →
  exec s w = None.
Proof.
  intros Hop Hy Hnull.
  assert (tensors h (heap w) = None) as Hm by (apply tensors_undefined; eauto).
  destruct s; simpl in Hop; try done; apply bool_decide_eq_true in Hop;
    subst; simpl; rewrite Hy; simpl.
  - by rewrite insert_undefined.
  - by rewrite replace_undefined.
  - by rewrite erase_undefined.
  - by rewrite op_subscript_undefined.
Qed.

Lemma destroy_defined x w :
  wf w → is_Some (store w !! x) →
  ∃ w', exec (SDestroy x) w = Some w' ∧ wf w' ∧
        store w' = delete x (store w).
Proof.
  intros Hwf [h Hx]. rewrite (world_eta w) in Hwf.
  destruct (release_wf _ _ x h Hwf Hx) as (hp' & Hrel & Hwf').
  simpl. rewrite Hx. simpl. rewrite Hrel. simpl. eauto.
Qed.

(** Two live objects can be destroyed one after the other, and no block
    has then been deleted twice. *)
Lemma destroy_both x y w :
  wf w → x ≠ y → is_Some (store w !! x) → is_Some (store w !! y) →
  ∃ w'', run [SDestroy y; SDestroy x] w = Some w'' ∧
         NoDup (freed (heap w'')).
Proof.
  intros Hwf Hxy Hx Hy.
  destruct (destroy_defined y w Hwf Hy) as (w1 & Hd1 & Hwf1 & Hs1).
  destruct (destroy_defined x w1 Hwf1) as (w2 & Hd2 & Hwf2 & Hs2).
  { rewrite Hs1. by rewrite lookup_delete_ne. }
  exists w2. split; [|apply Hwf2].
  rewrite run_cons, Hd1. change (run [SDestroy x] w1 = Some w2).
  by rewrite run_cons, Hd2.
Qed.

(** A null handle can be used for nothing that dereferences [tensors_]. *)
Lemma null_no_use this hp : tensors_ this = None → no_use this hp.
Proof.
  intros Hnull.
  assert (tensors this hp = None) as Hm by (apply tensors_undefined; eauto).
  unfold no_use. split_and!.
  - intros k v. by apply insert_undefined.
  - intros k v. by apply replace_undefined.
  - intros k. by apply erase_undefined.
  - intros k. by apply op_subscript_undefined.
  - intros k. unfold find. by rewrite Hm.
  - intros k. unfold lookup. by rewrite Hnull.
  - unfold size_. by rewrite Hm.
  - unfold keys. by rewrite Hm.
  - unfold RefCountIsOne. by rewrite Hnull.
  - unfold TensorMap_copy. by rewrite Hnull.
  - intros other. unfold copy_assign.
    destruct (tensors_ other) as [q|]; simpl; [|done].
    destruct (Unref q hp); simpl; [|done]. by rewrite Hnull.
  - unfold Copy, tensors. simpl. by rewrite Hnull.
  - unfold Zeros, tensors. simpl. by rewrite Hnull.
Qed.

Lemma null_unusable y w h :
  store w !! y = Some h → tensors_ h = None → unusable y w.
Proof.
  intros Hy Hnull. split.
  - intros s Hs. by eapply table_op_null.
  - exists h. split; [done|]. by apply null_no_use.
Qed.

(** In a well-formed world, a handle that is not null can be used for
    everything. *)
Lemma live_usable y w h p :
  wf w → store w !! y = Some h → tensors_ h = Some p → usable y w.
Proof.
  intros Hwf Hy Hp. destruct (wf_live w y h p Hwf Hy Hp) as (t & Hc & _).
  assert (tensors h (heap w) = Some (values_ t)) as Hm
    by (apply tensors_Some; eauto).
  split.
  - intros s Hs. destruct (table_op_defined s y w h p t) as [m ->]; eauto.
  - exists h, (values_ t). split; [done|]. split; [done|].
    split; [intros k; unfold find; by rewrite Hm|].
    split.
    { intros k. unfold lookup. rewrite Hp. simpl. rewrite Hm. simpl.
      destruct (values_ t !! k); simpl; split; intros [? ?]; eauto; done. }
    split; [unfold size_; by rewrite Hm|].
    split; [rewrite (keys_eq _ _ (values_ t)) by done; eauto|].
    split.
    { unfold RefCountIsOne, Tensors_RefCountIsOne. rewrite Hp. simpl.
      rewrite Hc. simpl. eauto. }
    split.
    { unfold TensorMap_copy. rewrite Hp. simpl. rewrite (Ref_eq p t) by done.
      simpl. eauto. }
    rewrite (Copy_eq _ _ p t), (Zeros_eq _ _ p t) by (done || apply Hwf).
    eauto.
Qed.

(** No object is both. *)
Lemma usable_not_unusable y w : usable y w → ¬ unusable y w.
Proof.
  intros (_ & h & m & Hy & _ & _ & _ & Hsize & _) (_ & h' & Hy' & Hno).
  assert (h' = h) as -> by congruence.
  destruct Hno as (_ & _ & _ & _ & _ & _ & Hnone & _). congruence.
Qed.

(** C9 (as amended): moves relocate the storage reference and change no
    count.  In a world reached by a program, let [y] be a live object.
    Move-constructing [x] from [y] leaves the heap and every other object as
    they are, gives [x] the header fields and the block of [y], and leaves
    [y] there with a moved-from shape, its other header fields and no
    block: [y] is unusable (every table operation through it, [find],
    [lookup], [size] and [keys] included, is undefined, and so are
    [RefCountIsOne], copying from it, [Copy] and [Zeros]), and destroying
    [y] frees nothing.  Move-assigning [y] to another object [x] leaves the
    heap and every other object as they are, gives [x] the header fields
    and the block of [y], and leaves [y] with its header fields and
    whatever [x] pointed to before.  So [y] is unusable exactly when [x]
    had no block; then destroying [y] frees nothing.  When [x] was on a
    block [q], [y] is a usable handle on [q] (every table operation through
    it is defined), and destroying [y] releases one reference to [q]: the
    count of [q] goes down by one, and [q] is deleted when that makes it
    zero.  Move-assigning [y] to itself changes nothing.  After either move
    both objects can be destroyed, source first, and no block has been
    deleted twice. *)
Theorem move_relocates_reference prog w y hy :
  run prog empty_world = Some w → store w !! y = Some hy →
  (∀ x, store w !! x = None →
     ∃ w', exec (SMoveCtor x y) w = Some w' ∧ heap w' = heap w ∧
       header_of x w' = Some (header hy) ∧ block_of x w' = tensors_ hy ∧
       is_Some (store w' !! y) ∧ block_of y w' = None ∧ unusable y w' ∧
       header_of y w' =
         Some (Shape_moved_from (element_shape hy), element_dtype hy,
               max_num_elements hy) ∧
       (∀ z, z ≠ x → z ≠ y → store w' !! z = store w !! z) ∧
       exec (SDestroy y) w' = Some (mkWorld (delete y (store w')) (heap w')) ∧
       ∃ w'', run [SDestroy y; SDestroy x] w' = Some w'' ∧
              NoDup (freed (heap w''))) ∧
  (∀ x hx, x ≠ y → store w !! x = Some hx →
     ∃ w', exec (SMoveAssign x y) w = Some w' ∧ heap w' = heap w ∧
       header_of x w' = Some (header hy) ∧ block_of x w' = tensors_ hy ∧
       header_of y w' = Some (header hy) ∧ block_of y w' = tensors_ hx ∧
       (∀ z, z ≠ x → z ≠ y → store w' !! z = store w !! z) ∧
       (unusable y w' ↔ tensors_ hx = None) ∧
       (tensors_ hx = None →
          exec (SDestroy y) w' =
            Some (mkWorld (delete y (store w')) (heap w'))) ∧
       (∀ q, tensors_ hx = Some q →
          usable y w' ∧
          ∃ t, cells (heap w') !! q = Some t ∧
            exec (SDestroy y) w' =
              Some (mkWorld (delete y (store w'))
                      (if decide (ref_ t - 1 = 0)%Z
                       then mkHeap (delete q (cells (heap w')))
                              (next (heap w')) (q :: freed (heap w'))
                       else set_cell q (mkTensors (ref_ t - 1) (values_ t))
                              (heap w')))) ∧
       ∃ w'', run [SDestroy y; SDestroy x] w' = Some w'' ∧
              NoDup (freed (heap w''))) ∧
  exec (SMoveAssign y y) w = Some w.
Proof.
  intros Hrun Hy. pose proof (reachable_wf _ _ Hrun) as Hwf.
  split; [|split].
  - intros x Hx. assert (x ≠ y) as Hxy by congruence.
    destruct (exec (SMoveCtor x y) w) as [w'|] eqn:Hexec.
    2: { simpl in Hexec. rewrite Hy in Hexec. simpl in Hexec.
         unfold declare in Hexec. simpl in Hexec.
         by rewrite lookup_insert_ne, Hx in Hexec. }
    pose proof (exec_wf _ _ _ Hwf Hexec) as Hwf'.
    simpl in Hexec. rewrite Hy in Hexec. simpl in Hexec.
    apply declare_Some in Hexec as [_ ->]. simpl in *.
    set (hx' := mkTensorMap _ _ _ (tensors_ hy)) in *.
    set (hy' := mkTensorMap _ _ _ None) in *.
    set (w' := mkWorld _ _) in *.
    assert (store w' !! x = Some hx') as Hx' by apply lookup_insert_eq.
    assert (store w' !! y = Some hy') as Hy'.
    { simpl. rewrite lookup_insert_ne by done. apply lookup_insert_eq. }
    exists w'. split; [done|]. split; [done|].
    split; [unfold header_of; by rewrite Hx'|].
    split; [by rewrite (block_of_eq x w' hx')|].
    split; [eauto|]. split; [by rewrite (block_of_eq y w' hy')|].
    split; [by apply null_unusable with hy'|].
    split; [unfold header_of; by rewrite Hy'|].
    split; [intros z Hzx Hzy; simpl; by rewrite !lookup_insert_ne|].
    split; [by apply destroy_null_spec with hy'|].
    apply destroy_both; eauto.
  - intros x hx Hxy Hx.
    destruct (exec (SMoveAssign x y) w) as [w'|] eqn:Hexec.
    2: { simpl in Hexec. rewrite Hx, Hy in Hexec. simpl in Hexec.
         by rewrite decide_False in Hexec. }
    pose proof (exec_wf _ _ _ Hwf Hexec) as Hwf'.
    simpl in Hexec. rewrite Hx, Hy in Hexec. simpl in Hexec.
    rewrite decide_False in Hexec by done. injection Hexec as <-.
    set (hx' := mkTensorMap _ _ _ (tensors_ hy)) in *.
    set (hy' := mkTensorMap _ _ _ (tensors_ hx)) in *.
    set (w' := mkWorld _ _) in *.
    assert (store w' !! x = Some hx') as Hx' by apply lookup_insert_eq.
    assert (store w' !! y = Some hy') as Hy'.
    { simpl. rewrite lookup_insert_ne by done. apply lookup_insert_eq. }
    exists w'. split; [done|]. split; [done|].
    split; [unfold header_of; by rewrite Hx'|].
    split; [by rewrite (block_of_eq x w' hx')|].
    split; [unfold header_of; by rewrite Hy'|].
    split; [by rewrite (block_of_eq y w' hy')|].
    split; [intros z Hzx Hzy; simpl; by rewrite !lookup_insert_ne|].
    split.
    { split.
      - intros Hun. destruct (tensors_ hx) as [q|] eqn:Hq; [|done].
        exfalso. apply (usable_not_unusable y w'); [|done].
        by apply live_usable with hy' q.
      - intros Hnull. by apply null_unusable with hy'. }
    split; [intros Hnull; by apply destroy_null_spec with hy'|].
    split.
    { intros q Hq. split; [by apply live_usable with hy' q|].
      destruct (wf_live w' y hy' q Hwf' Hy' Hq) as (t & Hc & _).
      exists t. split; [done|]. by apply destroy_spec with hy'. }
    apply destroy_both; eauto.
  - simpl. rewrite Hy. simpl. by rewrite decide_True.
Qed.

(** ** Encode and Decode *)

(** C4: Encode/Decode round trip.  For every handle [this] whose table is
    [m], empty or not, and every destination handle [dst] on a live block
    (its own or a shared one): [Encode] succeeds, [Decode] of its result
    into [dst] succeeds, and afterwards the header fields of the
    destination are those of [this] and its table is exactly [m]; the
    destination stays on its own block and no other block changes, so no
    storage comes to be shared. *)
Theorem Decode_Encode_round_trip (key_of : Tensor → option Key) this dst hp m :
  (∀ k, key_of (Tensor_of_key k) = Some k) →
  tensors this hp = Some m → is_Some (tensors dst hp) →
  ∃ data dst' hp',
    Encode this hp = Some data ∧
    data_count data = size m ∧
    Decode key_of dst data hp = Some (Some (dst', hp')) ∧
    header dst' = header this ∧
    tensors dst' hp' = Some m ∧
    tensors_ dst' = tensors_ dst ∧
    (∀ r, tensors_ dst ≠ Some r → cells hp' !! r = cells hp !! r).
Proof.
  intros Hkey Hm [m0 Hdst].
  pose proof Hdst as (q & tq & Hq & Hcq & _)%tensors_Some.
  unfold Encode, Decode. rewrite Hm, Hdst. simpl.
  eexists _, _, _. split; [done|]. split; [done|]. simpl.
  rewrite decide_True by by rewrite length_fmap, length_map_to_list.
  rewrite (mapM_fmap_Some (decode_entry key_of)
             (λ kv : Key * Tensor, (Tensor_of_key kv.1, kv.2))).
  2: { intros [k v]. unfold decode_entry. simpl. by rewrite Hkey. }
  rewrite list_to_map_to_list.
  unfold set_tensors. simpl. rewrite Hq. simpl. rewrite Hcq. simpl.
  split; [done|]. split; [done|]. split; [|split; [done|]].
  - unfold tensors. simpl. by rewrite lookup_insert_eq.
  - intros r Hr. simpl. rewrite lookup_insert_ne; [done|]. congruence.
Qed.

(** * Further properties of the operations *)

(** ** erase, replace, find and lookup *)

Lemma find_eq this hp p t key :
  tensors_ this = Some p → cells hp !! p = Some t →
  find this key hp = Some (values_ t !! key).
Proof.
  intros Hthis Hp. unfold find.
  assert (tensors this hp = Some (values_ t)) as -> by (apply tensors_Some; eauto).
  done.
Qed.

Lemma size_eq this hp p t :
  tensors_ this = Some p → cells hp !! p = Some t →
  size_ this hp = Some (size (values_ t)).
Proof.
  intros Hthis Hp. unfold size_.
  assert (tensors this hp = Some (values_ t)) as -> by (apply tensors_Some; eauto).
  done.
Qed.

Lemma lookup_eq this hp p t key :
  tensors_ this = Some p → cells hp !! p = Some t →
  lookup this key hp = (values_ t !! key) ≫= λ _, Some (p, key).
Proof.
  intros Hthis Hp. unfold lookup. rewrite Hthis. simpl.
  assert (tensors this hp = Some (values_ t)) as -> by (apply tensors_Some; eauto).
  done.
Qed.

(** X1: [erase(key)] removes the entry of [key] and nothing else.  On a
    handle whose table is [m]: when [key] is absent it returns 0 and leaves
    the heap exactly as it was; when [key] is present it returns 1, [find]
    then gives [end()] for [key], the size goes down by one, every other
    key is found with the value it had, and erasing [key] again returns 0
    and changes nothing. *)
Theorem erase_removes_entry this hp m key :
  tensors this hp = Some m →
  (m !! key = None → erase this key hp = Some (0%nat, hp)) ∧
  (∀ v0, m !! key = Some v0 → ∃ hp',
      erase this key hp = Some (1%nat, hp') ∧
      tensors this hp' = Some (delete key m) ∧
      find this key hp' = Some None ∧
      S (size (delete key m)) = size m ∧
      size_ this hp' = Some (size (delete key m)) ∧
      (∀ k, k ≠ key → find this k hp' = find this k hp) ∧
      erase this key hp' = Some (0%nat, hp')).
Proof.
  intros Hm. pose proof Hm as (p & t & Hthis & Hp & <-)%tensors_Some.
  split.
  - intros Hk. rewrite (erase_eq _ _ p t) by done. unfold map_erase.
    rewrite Hk. simpl. do 2 f_equal. destruct t; simpl. by apply set_cell_id.
  - intros v0 Hk. rewrite (erase_eq _ _ p t) by done. unfold map_erase.
    rewrite Hk. simpl. eexists. split; [done|].
    set (hp' := set_cell p _ hp).
    assert (cells hp' !! p = Some (mkTensors (ref_ t) (delete key (values_ t))))
      as Hp' by apply lookup_insert_eq.
    split; [apply tensors_Some; eauto|].
    rewrite (find_eq _ hp' p _ key Hthis Hp'), (size_eq _ hp' p _ Hthis Hp').
    simpl. rewrite lookup_delete_eq. split; [done|].
    split. { rewrite map_size_delete, Hk. simpl.
             assert (size (values_ t) ≠ 0%nat); [|lia].
             apply map_size_non_empty_iff. intros Hempty.
             by rewrite Hempty, lookup_empty in Hk. }
    split; [done|]. split.
    + intros k Hne.
      rewrite (find_eq _ hp' p _ k Hthis Hp'), (find_eq _ hp p t k Hthis Hp).
      simpl. by rewrite lookup_delete_ne.
    + rewrite (erase_eq _ hp' p _ key Hthis Hp'). unfold map_erase. simpl.
      rewrite lookup_delete_eq. simpl. do 2 f_equal. by apply set_cell_id.
Qed.

(** X2: [replace(k, v)] sets [k] to [v] unconditionally.  On a handle whose
    table is [m], [replace(k, v1)] followed by [replace(k, v2)] returns
    [true] twice and leaves the heap exactly as a single [replace(k, v2)]
    leaves it: [v2] is stored under [k], every other key keeps its value,
    and the size has grown by one exactly when [k] was absent from [m]. *)
Theorem replace_last_wins this hp m k v1 v2 :
  tensors this hp = Some m →
  ∃ hp1 hp2,
    replace this k v1 hp = Some (true, hp1) ∧
    replace this k v2 hp1 = Some (true, hp2) ∧
    replace this k v2 hp = Some (true, hp2) ∧
    tensors this hp2 = Some (<[k := v2]> m) ∧
    find this k hp2 = Some (Some v2) ∧
    (∀ k', k' ≠ k → find this k' hp2 = find this k' hp) ∧
    size_ this hp2 =
      Some (if m !! k is Some _ then size m else S (size m)).
Proof.
  intros Hm. pose proof Hm as (p & t & Hthis & Hp & <-)%tensors_Some.
  set (hp1 := set_cell p (mkTensors (ref_ t) (<[k := v1]> (values_ t))) hp).
  set (hp2 := set_cell p (mkTensors (ref_ t) (<[k := v2]> (values_ t))) hp).
  assert (cells hp1 !! p = Some (mkTensors (ref_ t) (<[k := v1]> (values_ t))))
    as Hp1 by apply lookup_insert_eq.
  assert (cells hp2 !! p = Some (mkTensors (ref_ t) (<[k := v2]> (values_ t))))
    as Hp2 by apply lookup_insert_eq.
  assert (replace this k v2 hp1 = Some (true, hp2)) as Hsecond.
  { rewrite (replace_eq _ hp1 p _ k v2 Hthis Hp1). simpl. unfold hp1, hp2.
    by rewrite set_cell_set_cell, insert_insert_eq. }
  exists hp1, hp2. rewrite !(replace_eq _ hp p t) by done.
  split; [done|]. split; [done|]. split; [done|].
  split; [apply tensors_Some; eauto|].
  rewrite (find_eq _ hp2 p _ k Hthis Hp2), (size_eq _ hp2 p _ Hthis Hp2).
  simpl. rewrite lookup_insert_eq. split; [done|]. split.
  - intros k' Hne.
    rewrite (find_eq _ hp2 p _ k' Hthis Hp2), (find_eq _ hp p t k' Hthis Hp).
    simpl. by rewrite lookup_insert_ne.
  - rewrite map_size_insert. by destruct (values_ t !! k).
Qed.

(** X3: [lookup(key)] is the mutable counterpart of [find(key)].  On a
    handle with a live block: [lookup] is defined exactly when [find] does
    not give [end()]; the reference it returns is the slot of [key] in the
    handle's block and holds the value [find] points at; and assigning [v]
    through it leaves the heap exactly as [replace(key, v)] leaves it. *)
Theorem lookup_agrees_with_find this hp m key :
  tensors this hp = Some m →
  (lookup this key hp = None ↔ find this key hp = Some None) ∧
  (∀ v0, find this key hp = Some (Some v0) →
     ∃ p, tensors_ this = Some p ∧
          lookup this key hp = Some (p, key) ∧
          deref (p, key) hp = Some v0 ∧
          ∀ v, ∃ hp', assign (p, key) v hp = Some hp' ∧
                      replace this key v hp = Some (true, hp') ∧
                      deref (p, key) hp' = Some v).
Proof.
  intros Hm. pose proof Hm as (p & t & Hthis & Hp & <-)%tensors_Some.
  rewrite (lookup_eq _ hp p t key Hthis Hp), (find_eq _ hp p t key Hthis Hp).
  split.
  - destruct (values_ t !! key); simpl; split; intros Heq; by simplify_eq.
  - intros v0 [= Hk]. exists p. rewrite Hk. simpl. split; [done|].
    split; [done|]. unfold deref, assign. simpl. rewrite Hp. simpl.
    rewrite Hk. simpl. split; [done|]. intros v. eexists. split; [done|].
    rewrite (replace_eq _ hp p t) by done. split; [done|].
    rewrite cells_set_cell_eq. simpl. apply lookup_insert_eq.
Qed.

(** ** keys *)

(** X4: what [keys()] returns.  On a handle whose table is [m], the result
    is [size()] default-constructed tensors followed by the keys of [m] as
    tensors, one per entry in iteration order: its length is twice the
    size, a tensor is in the second half exactly when it is a current key
    seen as a tensor, and on the empty map the result is empty. *)
Theorem keys_defaults_then_keys this hp m :
  tensors this hp = Some m →
  ∃ ks, keys this hp = Some (replicate (size m) Tensor_default ++ ks) ∧
    ks = Tensor_of_key <$> (map_to_list m).*1 ∧
    NoDup (map_to_list m).*1 ∧
    length ks = size m ∧
    (∀ ten, ten ∈ ks ↔ ∃ k, is_Some (m !! k) ∧ ten = Tensor_of_key k) ∧
    (m = ∅ → keys this hp = Some []).
Proof.
  intros Hm. eexists. split; [by apply keys_eq|]. split; [done|].
  split; [apply NoDup_fst_map_to_list|].
  split; [by rewrite !length_fmap, length_map_to_list|]. split.
  - intros ten. rewrite list_elem_of_fmap. split.
    + intros (k & -> & Hk%elem_of_map_to_list_fst). eauto.
    + intros (k & Hk & ->). exists k. split; [done|].
      by apply elem_of_map_to_list_fst.
  - intros ->. rewrite (keys_eq _ _ ∅) by done.
    by rewrite map_size_empty, map_to_list_empty.
Qed.

(** ** insert and erase undo each other *)

(** X5: on a handle whose table is [m], inserting an absent key and then
    erasing it restores the heap exactly, and erasing a present key and
    then inserting it with the value it had restores the heap exactly. *)
Theorem insert_erase_round_trip this hp m key :
  tensors this hp = Some m →
  (m !! key = None → ∀ value, ∃ hp1,
      insert this key value hp = Some (true, hp1) ∧
      erase this key hp1 = Some (1%nat, hp)) ∧
  (∀ v0, m !! key = Some v0 → ∃ hp1,
      erase this key hp = Some (1%nat, hp1) ∧
      insert this key v0 hp1 = Some (true, hp)).
Proof.
  intros Hm. pose proof Hm as (p & t & Hthis & Hp & <-)%tensors_Some.
  split.
  - intros Hk value. rewrite (insert_eq _ _ p t), try_emplace_absent by done.
    simpl. eexists. split; [done|].
    rewrite (erase_eq _ _ p (mkTensors (ref_ t) (<[key := value]> (values_ t))))
      by (done || apply lookup_insert_eq).
    unfold map_erase. simpl. rewrite lookup_insert_eq. simpl.
    rewrite set_cell_set_cell, delete_insert_id by done.
    do 2 f_equal. destruct t; simpl. by apply set_cell_id.
  - intros v0 Hk. rewrite (erase_eq _ _ p t) by done. unfold map_erase.
    rewrite Hk. simpl. eexists. split; [done|].
    rewrite (insert_eq _ _ p (mkTensors (ref_ t) (delete key (values_ t))))
      by (done || apply lookup_insert_eq).
    rewrite try_emplace_absent by (simpl; apply lookup_delete_eq). simpl.
    rewrite set_cell_set_cell, insert_delete_id by done.
    do 2 f_equal. destruct t; simpl. by apply set_cell_id.
Qed.

(** ** The shape of heap changes *)

Lemma heap_steps_trans tbl hp1 hp2 hp3 :
  heap_steps tbl hp1 hp2 → heap_steps tbl hp2 hp3 → heap_steps tbl hp1 hp3.
Proof.
  induction 1 as [|? ? ? ? ? Hp Hc _ IH|? ? ? ? ? Htbl Hp _ IH|? ? ? _ IH
                  |? ? ? ? Hp Hone _ IH]; intros Hsteps.
  - done.
  - eapply steps_count; eauto.
  - eapply steps_table; eauto.
  - eapply steps_alloc; eauto.
  - eapply steps_delete; eauto.
Qed.

Lemma heap_steps_weaken tbl hp hp' :
  heap_steps false hp hp' → heap_steps tbl hp hp'.
Proof.
  induction 1 as [|? ? ? ? ? Hp Hc _ IH|? ? ? ? ? Htbl Hp _ IH|? ? ? _ IH
                  |? ? ? ? Hp Hone _ IH].
  - apply steps_done.
  - eapply steps_count; eauto.
  - done.
  - eapply steps_alloc; eauto.
  - eapply steps_delete; eauto.
Qed.

Lemma Ref_steps p hp hp' :
  heap_ok hp → Ref p hp = Some hp' → heap_steps false hp hp'.
Proof.
  intros Hok Href. unfold Ref in Href.
  destruct (cells hp !! p) as [t|] eqn:Hp; simpl in Href; [|done].
  injection Href as <-. eapply (steps_count _ _ _ p t); [done| |apply steps_done].
  pose proof (ok_pos _ Hok p t Hp). lia.
Qed.

Lemma Unref_steps p hp hp' :
  heap_ok hp → Unref p hp = Some hp' → heap_steps false hp hp'.
Proof.
  intros Hok Hunref. unfold Unref in Hunref.
  destruct (cells hp !! p) as [t|] eqn:Hp; simpl in Hunref; [|done].
  pose proof (ok_pos _ Hok p t Hp). case_decide; injection Hunref as <-.
  - eapply (steps_delete _ _ _ p t); [done|lia|apply steps_done].
  - eapply (steps_count _ _ _ p t (ref_ t - 1)); [done|lia|apply steps_done].
Qed.

Lemma heap_steps_ok tbl hp hp' : heap_steps tbl hp hp' → heap_ok hp → heap_ok hp'.
Proof.
  induction 1 as [|? ? ? ? ? Hp Hc _ IH|? ? ? ? ? Htbl Hp _ IH|? ? ? _ IH
                  |? ? ? ? Hp Hone _ IH]; intros Hok.
  - done.
  - apply IH. by eapply heap_ok_set_cell.
  - apply IH. eapply heap_ok_set_cell; [done..|]. simpl. by apply (ok_pos _ Hok p).
  - apply IH. by apply heap_ok_alloc.
  - apply IH. by eapply heap_ok_delete.
Qed.

(** Each statement changes the heap by elementary steps, and only a table
    operation changes a table. *)
Lemma exec_heap_steps s w w' :
  wf w → exec s w = Some w' → heap_steps (is_table_op s) (heap w) (heap w').
Proof.
  intros Hwf Hexec. pose proof (proj2 Hwf) as Hok.
  destruct s as [x|x y|x y|x y|x y|x|x y|x y|x k v|x k v|x k|x k|x sh d n];
    simpl is_table_op.
  - simpl in Hexec. apply declare_Some in Hexec as [_ ->]. simpl.
    eapply steps_alloc; apply steps_done.
  - simpl in Hexec.
    destruct (store w !! y) as [other|] eqn:Hy; simpl in Hexec; [|done].
    unfold TensorMap_copy in Hexec.
    destruct (tensors_ other) as [p|]; simpl in Hexec; [|done].
    destruct (Ref p (heap w)) as [hp1|] eqn:Href; simpl in Hexec; [|done].
    apply declare_Some in Hexec as [_ ->]. simpl. by eapply Ref_steps.
  - simpl in Hexec.
    destruct (store w !! y) as [rhs|] eqn:Hy; simpl in Hexec; [|done].
    apply declare_Some in Hexec as [_ ->]. apply steps_done.
  - simpl in Hexec.
    destruct (store w !! x) as [this|] eqn:Hx; simpl in Hexec; [|done].
    destruct (store w !! y) as [rhs|] eqn:Hy; simpl in Hexec; [|done].
    case_decide as Hxy; [simplify_eq; apply steps_done|].
    unfold copy_assign in Hexec.
    destruct (tensors_ this) as [q|] eqn:Hq; simpl in Hexec; [|done].
    destruct (Unref q (heap w)) as [hp1|] eqn:Hunref; simpl in Hexec; [|done].
    destruct (tensors_ rhs) as [p|] eqn:Hp; simpl in Hexec; [|done].
    destruct (Ref p hp1) as [hp2|] eqn:Href; simpl in Hexec; [|done].
    injection Hexec as <-. simpl.
    pose proof (Unref_steps _ _ _ Hok Hunref) as Hs1.
    eapply heap_steps_trans; [done|]. eapply Ref_steps; [|done].
    by eapply heap_steps_ok.
  - simpl in Hexec.
    destruct (store w !! x) as [this|] eqn:Hx; simpl in Hexec; [|done].
    destruct (store w !! y) as [rhs|] eqn:Hy; simpl in Hexec; [|done].
    case_decide; simplify_eq; apply steps_done.
  - simpl in Hexec.
    destruct (store w !! x) as [this|] eqn:Hx; simpl in Hexec; [|done].
    unfold TensorMap_destroy in Hexec.
    destruct (tensors_ this) as [p|] eqn:Hp; simpl in Hexec.
    + destruct (Unref p (heap w)) as [hp1|] eqn:Hunref; simpl in Hexec; [|done].
      injection Hexec as <-. by eapply Unref_steps.
    + injection Hexec as <-. apply steps_done.
  - simpl in Hexec.
    destruct (store w !! y) as [this|] eqn:Hy; simpl in Hexec; [|done].
    destruct (tensors_ this) as [p|] eqn:Hp.
    + destruct (wf_live w y this p) as (t & Hc & _); [done..|].
      rewrite (Copy_eq _ _ p t) in Hexec by done.
      simpl in Hexec. apply declare_Some in Hexec as [_ ->]. simpl.
      eapply steps_alloc; apply steps_done.
    + unfold Copy, tensors in Hexec. simpl in Hexec. by rewrite Hp in Hexec.
  - simpl in Hexec.
    destruct (store w !! y) as [this|] eqn:Hy; simpl in Hexec; [|done].
    destruct (tensors_ this) as [p|] eqn:Hp.
    + destruct (wf_live w y this p) as (t & Hc & _); [done..|].
      rewrite (Zeros_eq _ _ p t) in Hexec by done.
      simpl in Hexec. apply declare_Some in Hexec as [_ ->]. simpl.
      eapply steps_alloc; apply steps_done.
    + unfold Zeros, tensors in Hexec. simpl in Hexec. by rewrite Hp in Hexec.
  - destruct (table_op_exec (SInsert x k v) x w w')
      as (this & p & t & m & _ & _ & Hp & ->);
      [by apply bool_decide_eq_true|done|].
    simpl. eapply steps_table; [done|done|apply steps_done].
  - destruct (table_op_exec (SReplace x k v) x w w')
      as (this & p & t & m & _ & _ & Hp & ->);
      [by apply bool_decide_eq_true|done|].
    simpl. eapply steps_table; [done|done|apply steps_done].
  - destruct (table_op_exec (SErase x k) x w w')
      as (this & p & t & m & _ & _ & Hp & ->);
      [by apply bool_decide_eq_true|done|].
    simpl. eapply steps_table; [done|done|apply steps_done].
  - destruct (table_op_exec (SSubscript x k) x w w')
      as (this & p & t & m & _ & _ & Hp & ->);
      [by apply bool_decide_eq_true|done|].
    simpl. eapply steps_table; [done|done|apply steps_done].
  - simpl in Hexec.
    destruct (store w !! x) as [this|] eqn:Hx; simpl in Hexec; [|done].
    injection Hexec as <-. apply steps_done.
Qed.

Lemma heap_steps_freed tbl hp hp' p :
  heap_steps tbl hp hp' → p ∈ freed hp → p ∈ freed hp'.
Proof.
  induction 1 as [|? ? ? ? ? _ _ _ IH|? ? ? ? ? _ _ _ IH|? ? ? _ IH
                  |? ? ? ? _ _ _ IH]; intros Hin; try done; apply IH; simpl;
    try done.
  apply elem_of_cons. by right.
Qed.

Lemma heap_steps_tables_kept hp hp' :
  heap_steps false hp hp' → heap_ok hp → tables_kept hp hp'.
Proof.
  induction 1 as [|? ? ? ? ? Hp Hc Hsteps IH|? ? ? ? ? Htbl Hp _ IH
                  |? ? m0 Hsteps IH|? ? ? ? Hp Hone Hsteps IH]; intros Hok.
  - intros p t Hp. right. exists (ref_ t). by destruct t.
  - intros r tr Hr.
    assert (heap_ok (set_cell p (mkTensors c (values_ t)) hp)) as Hok'
      by by eapply heap_ok_set_cell.
    destruct (decide (r = p)) as [->|Hne].
    + assert (tr = t) as -> by congruence.
      apply (IH Hok' p (mkTensors c (values_ t))), cells_set_cell_eq.
    + apply (IH Hok' r tr). by rewrite cells_set_cell_ne.
  - done.
  - intros r tr Hr. pose proof (next_not_live hp Hok) as Hfresh.
    assert (heap_ok (mkHeap (<[next hp := mkTensors 1 m0]> (cells hp))
                       (Pos.succ (next hp)) (freed hp))) as Hok'
      by (apply heap_ok_alloc; [done|simpl; lia]).
    apply (IH Hok' r tr). simpl.
    rewrite lookup_insert_ne; [done|]. congruence.
  - intros r tr Hr. pose proof (heap_ok_delete p t hp Hok Hp) as Hok'.
    destruct (decide (r = p)) as [->|Hne].
    + left. pose proof (heap_steps_ok _ _ _ Hsteps Hok') as Hok''.
      apply (ok_freed _ Hok'' p). eapply heap_steps_freed; [done|]. simpl.
      apply elem_of_cons. by left.
    + apply (IH Hok' r tr). simpl. by rewrite lookup_delete_ne.
Qed.

Lemma heap_steps_accounted tbl hp hp' :
  heap_steps tbl hp hp' → accounted hp → accounted hp'.
Proof.
  induction 1 as [|? ? ? ? ? Hp Hc _ IH|? ? ? ? ? Htbl Hp _ IH|? ? ? _ IH
                  |? ? ? ? Hp Hone _ IH]; intros Hacc.
  - done.
  - apply IH. intros r. destruct (Hacc r) as [Hlow Hhigh]. simpl. split.
    + intros Hlt. destruct (Hlow Hlt) as [Hlive|Hfreed]; [left|by right].
      apply lookup_insert_is_Some'. by right.
    + intros Hge. destruct (Hhigh Hge) as [Hnone Hnot]. split; [|done].
      rewrite lookup_insert_ne; [done|]. congruence.
  - apply IH. intros r. destruct (Hacc r) as [Hlow Hhigh]. simpl. split.
    + intros Hlt. destruct (Hlow Hlt) as [Hlive|Hfreed]; [left|by right].
      apply lookup_insert_is_Some'. by right.
    + intros Hge. destruct (Hhigh Hge) as [Hnone Hnot]. split; [|done].
      rewrite lookup_insert_ne; [done|]. congruence.
  - apply IH. intros r. destruct (Hacc r) as [Hlow Hhigh]. simpl. split.
    + intros Hlt. destruct (decide (r = next hp)) as [->|Hne].
      * left. rewrite lookup_insert_eq. eauto.
      * destruct Hlow as [Hlive|Hfreed]; [lia|left|by right].
        apply lookup_insert_is_Some'. by right.
    + intros Hge. destruct Hhigh as [Hnone Hnot]; [lia|]. split; [|done].
      rewrite lookup_insert_ne; [done|]. lia.
  - apply IH. intros r. destruct (Hacc r) as [Hlow Hhigh]. simpl. split.
    + intros Hlt. destruct (decide (r = p)) as [->|Hne].
      * right. apply elem_of_cons. by left.
      * destruct (Hlow Hlt) as [Hlive|Hfreed].
        -- left. by rewrite lookup_delete_ne.
        -- right. apply elem_of_cons. by right.
    + intros Hge. destruct (Hhigh Hge) as [Hnone Hnot]. split.
      * rewrite lookup_delete_None. by right.
      * intros [->|Hin]%elem_of_cons; [congruence|done].
Qed.

Lemma run_accounted prog w w' :
  wf w → accounted (heap w) → run prog w = Some w' → accounted (heap w').
Proof.
  revert w. induction prog as [|s prog IH]; intros w Hwf Hacc Hrun;
    simpl in Hrun.
  - by simplify_eq.
  - destruct (exec s w) as [w1|] eqn:Hexec; simpl in Hrun; [|done].
    eapply (IH w1); [by eapply exec_wf| |done].
    eapply heap_steps_accounted; [by eapply exec_heap_steps|done].
Qed.

Lemma empty_heap_accounted : accounted (empty_heap (Key := Key) (Tensor := Tensor)).
Proof.
  intros p. simpl. split.
  - lia.
  - intros _. split; [apply lookup_empty|apply not_elem_of_nil].
Qed.

(** ** Assignment, moved-from handles *)

Lemma two_handles_count w x y hx hy p t :
  wf w → x ≠ y → store w !! x = Some hx → store w !! y = Some hy →
  tensors_ hx = Some p → tensors_ hy = Some p →
  cells (heap w) !! p = Some t → (2 ≤ ref_ t)%Z.
Proof.
  intros [Hcount _] Hxy Hx Hy Hpx Hpy Hp. specialize (Hcount p).
  rewrite (rc_live p t) in Hcount by done. rewrite Hcount.
  rewrite (refs_lookup p x hx), (ind_eq p hx) by done.
  rewrite (refs_lookup p y hy (delete x (store w))), (ind_eq p hy);
    [lia|done|by rewrite lookup_delete_ne].
Qed.

(** X6: what copy assignment does to the block the assignee leaves.  In a
    world reached by a program, let [b] be on block [q] holding [tq] and
    [a] on another block [p].  Then [b = a] runs; when [b] was the only
    handle on [q] (count 1) the block [q] is deleted, once, and no handle
    points to it any more; otherwise [q] keeps its table and its count goes
    down by one.  No block other than [p] and [q] changes and no block is
    allocated. *)
Theorem copy_assign_releases_previous prog w a b ha hb p q tq :
  run prog empty_world = Some w → b ≠ a →
  store w !! a = Some ha → store w !! b = Some hb →
  tensors_ ha = Some p → tensors_ hb = Some q → q ≠ p →
  cells (heap w) !! q = Some tq →
  ∃ w', exec (SCopyAssign b a) w = Some w' ∧
    (if decide (ref_ tq = 1%Z)
     then cells (heap w') !! q = None ∧
          freed (heap w') = q :: freed (heap w) ∧
          (∀ z, block_of z w' ≠ Some q)
     else cells (heap w') !! q = Some (mkTensors (ref_ tq - 1) (values_ tq)) ∧
          freed (heap w') = freed (heap w)) ∧
    (∀ r, r ≠ p → r ≠ q → cells (heap w') !! r = cells (heap w) !! r) ∧
    next (heap w') = next (heap w).
Proof.
  intros Hrun Hba Ha Hb Hp Hq Hqp Hcq.
  pose proof (reachable_wf _ _ Hrun) as Hwf.
  destruct (wf_live w a ha p Hwf Ha Hp) as (tp & Hcp & _).
  destruct (exec (SCopyAssign b a) w) as [w'|] eqn:Hexec.
  2: { simpl in Hexec. rewrite Hb, Ha in Hexec. simpl in Hexec.
       rewrite decide_False in Hexec by done. unfold copy_assign in Hexec.
       rewrite Hq in Hexec. simpl in Hexec.
       rewrite (Unref_eq q tq) in Hexec by done. simpl in Hexec.
       rewrite Hp in Hexec. simpl in Hexec. unfold Ref in Hexec.
       case_decide; simpl in Hexec.
       - by rewrite lookup_delete_ne, Hcp in Hexec.
       - by rewrite lookup_insert_ne, Hcp in Hexec. }
  pose proof (exec_wf _ _ _ Hwf Hexec) as Hwf'.
  exists w'. split; [done|].
  simpl in Hexec. rewrite Hb, Ha in Hexec. simpl in Hexec.
  rewrite decide_False in Hexec by done. unfold copy_assign in Hexec.
  rewrite Hq in Hexec. simpl in Hexec.
  rewrite (Unref_eq q tq) in Hexec by done. simpl in Hexec.
  rewrite Hp in Hexec. simpl in Hexec. unfold Ref in Hexec.
  destruct (decide (ref_ tq - 1 = 0)%Z) as [Hzero|Hnonzero]; simpl in Hexec.
  - rewrite lookup_delete_ne, Hcp in Hexec by done. simpl in Hexec.
    injection Hexec as <-. simpl in *. rewrite decide_True by lia.
    assert (<[p := mkTensors (ref_ tp + 1) (values_ tp)]>
              (delete q (cells (heap w))) !! q = None) as Hgone.
    { rewrite lookup_insert_ne by done. apply lookup_delete_eq. }
    split; [|split; [|done]].
    + split; [done|]. split; [done|].
      intros z (hz & Hz & Hhz)%block_of_Some.
      destruct (wf_live _ z hz q Hwf' Hz Hhz) as (tz & Hcz & _).
      simpl in Hcz. congruence.
    + intros r Hrp Hrq. by rewrite lookup_insert_ne, lookup_delete_ne.
  - rewrite lookup_insert_ne, Hcp in Hexec by done. simpl in Hexec.
    injection Hexec as <-. simpl. rewrite decide_False by lia.
    split; [|split; [|done]].
    + split; [|done]. rewrite lookup_insert_ne by done. apply lookup_insert_eq.
    + intros r Hrp Hrq. by rewrite !lookup_insert_ne.
Qed.

(** X7: what a moved-from handle can still be used for.  Let [y] be a live
    object whose [tensors_] is null.  Copy-constructing from [y], copy
    assignment from [y] or to [y], [Copy], [Zeros], [RefCountIsOne] and
    every table operation through [y] ([insert], [replace], [erase],
    [operator[]], [find], [lookup], [size] and [keys]) dereference the null
    pointer: they are undefined.
    Assigning [y] to itself is the early return and changes nothing.
    Move-assigning another live object [a] to [y] is defined: it changes no
    block, [y] takes the header fields and the block of [a], and [a] is left
    with the null pointer. *)
Theorem moved_from_handle_uses w y hy :
  store w !! y = Some hy → tensors_ hy = None →
  (∀ x, exec (SCopyCtor x y) w = None) ∧
  (∀ x, x ≠ y → exec (SCopyAssign x y) w = None) ∧
  (∀ a, a ≠ y → exec (SCopyAssign y a) w = None) ∧
  (∀ x, exec (SCopy x y) w = None) ∧
  (∀ x, exec (SZeros x y) w = None) ∧
  unusable y w ∧
  no_use hy (heap w) ∧
  RefCountIsOne_of y w = None ∧
  exec (SCopyAssign y y) w = Some w ∧
  (∀ a ha, a ≠ y → store w !! a = Some ha →
     ∃ w', exec (SMoveAssign y a) w = Some w' ∧ heap w' = heap w ∧
       header_of y w' = Some (header ha) ∧ block_of y w' = tensors_ ha ∧
       block_of a w' = None ∧
       (∀ z, z ≠ y → z ≠ a → store w' !! z = store w !! z)).
Proof.
  intros Hy Hnull.
  split; [|split; [|split; [|split; [|split; [|split; [|split; [|split;
    [|split]]]]]]]].
  - intros x. simpl. rewrite Hy. simpl. unfold TensorMap_copy. by rewrite Hnull.
  - intros x Hxy. simpl. destruct (store w !! x) as [this|]; simpl; [|done].
    rewrite Hy. simpl. rewrite decide_False by done. unfold copy_assign.
    destruct (tensors_ this) as [q|]; simpl; [|done].
    destruct (Unref q (heap w)); simpl; [|done]. by rewrite Hnull.
  - intros a Hay. simpl. rewrite Hy. simpl.
    destruct (store w !! a) as [rhs|]; simpl; [|done].
    rewrite decide_False by done. unfold copy_assign. by rewrite Hnull.
  - intros x. simpl. rewrite Hy. simpl. unfold Copy, tensors. simpl.
    by rewrite Hnull.
  - intros x. simpl. rewrite Hy. simpl. unfold Zeros, tensors. simpl.
    by rewrite Hnull.
  - by apply null_unusable with hy.
  - by apply null_no_use.
  - unfold RefCountIsOne_of, RefCountIsOne. rewrite Hy. simpl. by rewrite Hnull.
  - simpl. rewrite Hy. simpl. by rewrite decide_True.
  - intros a ha Hay Ha. simpl. rewrite Hy, Ha. simpl.
    rewrite decide_False by done. eexists. split; [done|]. simpl.
    split; [done|]. unfold header_of, block_of. simpl.
    rewrite lookup_insert_eq. simpl. split; [done|]. split; [done|].
    rewrite lookup_insert_ne, lookup_insert_eq by done. simpl.
    split; [done|]. intros z Hzy Hza. by rewrite !lookup_insert_ne.
Qed.

(** ** Table operations and reference counts *)

(** X8: table operations touch one table and nothing else.  Whatever
    insertions, replacements, erasures and subscriptings run through a
    handle on a live block [q], they all run; no handle changes, no block
    is allocated or deleted, no block other than [q] changes, and every
    handle has the block, the header fields, the reference count and the
    [RefCountIsOne()] it had. *)
Theorem table_ops_change_one_table ops x w hx q tq :
  table_ops_on x ops → store w !! x = Some hx →
  tensors_ hx = Some q → cells (heap w) !! q = Some tq →
  ∃ w', run ops w = Some w' ∧ store w' = store w ∧
    next (heap w') = next (heap w) ∧ freed (heap w') = freed (heap w) ∧
    (∀ r, r ≠ q → cells (heap w') !! r = cells (heap w) !! r) ∧
    (∀ z, block_of z w' = block_of z w ∧ header_of z w' = header_of z w ∧
          count_of z w' = count_of z w ∧
          RefCountIsOne_of z w' = RefCountIsOne_of z w).
Proof.
  intros Hops Hx Hq Hcq.
  destruct (table_ops_frame ops x w hx q tq Hops Hx Hq Hcq)
    as (w' & m & Hrun & Hstore & Hcq' & Hframe & Hnext & Hfreed).
  exists w'. repeat (split; [done|]). intros z.
  assert (∀ r, ref_ <$> cells (heap w') !! r = ref_ <$> cells (heap w) !! r)
    as Hrefs.
  { intros r. destruct (decide (r = q)) as [->|Hne].
    - by rewrite Hcq', Hcq.
    - by rewrite Hframe. }
  unfold count_of, RefCountIsOne_of, RefCountIsOne, Tensors_RefCountIsOne,
    block_of, header_of.
  rewrite Hstore. split; [done|]. split; [done|].
  destruct (store w !! z) as [hz|]; simpl; [|done].
  destruct (tensors_ hz) as [r|]; simpl; [|done].
  specialize (Hrefs r).
  destruct (cells (heap w') !! r), (cells (heap w) !! r); simpl in *;
    try done.
  injection Hrefs as Heq. by rewrite Heq.
Qed.

(** X9: [RefCountIsOne()] is the aliasing test the header documents.  In a
    world reached by a program: when [x.RefCountIsOne()] is true, whatever
    table operations run through [x], every other object sees the table it
    saw before; when it is false, there is another object on the block of
    [x], and an insertion through [x] of a key absent from the table [m]
    changes the table that object sees from [m] to [m] with the new entry. *)
Theorem RefCountIsOne_guards_aliasing prog w x :
  run prog empty_world = Some w →
  (RefCountIsOne_of x w = Some true →
     ∀ ops, table_ops_on x ops →
       ∃ w', run ops w = Some w' ∧
             ∀ z, z ≠ x → table_of z w' = table_of z w) ∧
  (RefCountIsOne_of x w = Some false →
     ∃ z, z ≠ x ∧ is_Some (block_of x w) ∧ block_of z w = block_of x w ∧
       ∀ m k v, table_of x w = Some m → m !! k = None →
         ∃ w', exec (SInsert x k v) w = Some w' ∧
               table_of z w = Some m ∧
               table_of z w' = Some (<[k := v]> m)).
Proof.
  intros Hrun. pose proof (reachable_wf _ _ Hrun) as Hwf.
  assert (∀ r, RefCountIsOne_of x w = Some r →
            ∃ hx q tq, store w !! x = Some hx ∧ tensors_ hx = Some q ∧
              cells (heap w) !! q = Some tq ∧
              r = bool_decide (ref_ tq = 1%Z) ∧
              ref_ tq = Z.of_nat (refs q (store w))) as Hinv.
  { intros r Hr. unfold RefCountIsOne_of, RefCountIsOne in Hr.
    destruct (store w !! x) as [hx|] eqn:Hx; simpl in Hr; [|done].
    destruct (tensors_ hx) as [q|] eqn:Hq; simpl in Hr; [|done].
    destruct (wf_live w x hx q Hwf Hx Hq) as (tq & Hcq & Hrefs & _).
    unfold Tensors_RefCountIsOne in Hr. rewrite Hcq in Hr. simpl in Hr.
    exists hx, q, tq. by simplify_eq. }
  split.
  - intros (hx & q & tq & Hx & Hq & Hcq & Hone & Hrefs)%Hinv ops Hops.
    symmetry in Hone. apply bool_decide_eq_true in Hone.
    assert (refs q (store w) = 1%nat) as Honly by lia.
    rewrite (only_handle_iff (store w) x hx q Hx Hq) in Honly.
    destruct (table_ops_frame ops x w hx q tq Hops Hx Hq Hcq)
      as (w' & m & Hrun' & Hstore & _ & Hframe & _).
    exists w'. split; [done|]. intros z Hz. unfold table_of, tensors.
    rewrite Hstore. destruct (store w !! z) as [hz|] eqn:Hsz; simpl; [|done].
    destruct (tensors_ hz) as [r|] eqn:Hr; simpl; [|done].
    rewrite Hframe; [done|]. intros ->. by specialize (Honly z hz Hsz Hr).
  - intros (hx & q & tq & Hx & Hq & Hcq & Hone & Hrefs)%Hinv.
    symmetry in Hone. apply bool_decide_eq_false in Hone.
    rewrite (refs_lookup q x hx), (ind_eq q hx) in Hrefs by done.
    destruct (wf_live w x hx q Hwf Hx Hq) as (tq' & Hcq' & _ & Hpos).
    assert (tq' = tq) as -> by congruence.
    assert (handles_on q (delete x (store w)) ≠ ∅) as Hne.
    { intros Hempty. unfold refs in Hrefs.
      rewrite Hempty, map_size_empty in Hrefs. lia. }
    apply map_choose in Hne as (z & hz & Hz).
    apply map_lookup_filter_Some in Hz as [Hz Hhz]. simpl in Hhz.
    apply lookup_delete_Some in Hz as [Hzx Hz].
    exists z. split; [done|].
    rewrite (block_of_eq x w hx), (block_of_eq z w hz), Hq by done.
    split; [eauto|]. split; [done|]. intros m k v Hm Hk.
    rewrite (table_of_eq x w hx q tq) in Hm by done. simplify_eq.
    destruct (insert_through_alias x z w hx hz q tq k v) as (w' & He & Hz' & _);
      [done..|].
    exists w'. split; [done|]. split; [|done].
    by apply (table_of_eq z w hz q tq).
Qed.

(** ** No dangling handle, no lost block *)

(** X10: no live handle dangles.  In a world reached by a program, every
    object whose [tensors_] is not null points to a block that is there:
    [tensors()] is defined, [find], [size], [keys], [RefCountIsOne],
    [insert], [replace], [erase] and [operator[]] through it are all
    defined, [lookup] is defined exactly on the keys of the table, and the
    object can be copy-constructed from, [Copy]'d and [Zeros]'d. *)
Theorem live_handles_never_dangle prog w x h :
  run prog empty_world = Some w →
  store w !! x = Some h → is_Some (tensors_ h) →
  ∃ m, tensors h (heap w) = Some m ∧
    (∀ k, find h k (heap w) = Some (m !! k)) ∧
    size_ h (heap w) = Some (size m) ∧
    is_Some (keys h (heap w)) ∧
    is_Some (RefCountIsOne h (heap w)) ∧
    (∀ k v, is_Some (insert h k v (heap w)) ∧
            is_Some (replace h k v (heap w))) ∧
    (∀ k, is_Some (erase h k (heap w)) ∧
          is_Some (op_subscript h k (heap w)) ∧
          (is_Some (lookup h k (heap w)) ↔ is_Some (m !! k))) ∧
    is_Some (TensorMap_copy h (heap w)) ∧
    is_Some (Copy h (heap w)) ∧
    is_Some (Zeros h (heap w)).
Proof.
  intros Hrun Hx [p Hp]. pose proof (reachable_wf _ _ Hrun) as Hwf.
  destruct (wf_live w x h p Hwf Hx Hp) as (t & Hc & _).
  assert (tensors h (heap w) = Some (values_ t)) as Hm
    by (apply tensors_Some; eauto).
  exists (values_ t). split; [done|].
  split; [intros k; by apply (find_eq _ _ p)|].
  split; [by apply (size_eq _ _ p)|].
  split; [rewrite (keys_eq _ _ (values_ t)) by done; eauto|].
  split.
  { unfold RefCountIsOne, Tensors_RefCountIsOne. rewrite Hp. simpl.
    rewrite Hc. simpl. eauto. }
  split.
  { intros k v. rewrite (insert_eq _ _ p t), (replace_eq _ _ p t) by done.
    eauto. }
  split.
  { intros k. rewrite (erase_eq _ _ p t), (op_subscript_eq _ _ p t),
      (lookup_eq _ _ p t) by done.
    split; [eauto|]. split; [eauto|].
    destruct (values_ t !! k); simpl; split; intros [? ?]; eauto; done. }
  split.
  { unfold TensorMap_copy. rewrite Hp. simpl. rewrite (Ref_eq p t) by done.
    simpl. eauto. }
  rewrite (Copy_eq _ _ p t), (Zeros_eq _ _ p t) by (done || apply Hwf).
  eauto.
Qed.

Lemma live_block_has_handle w p t :
  wf w → cells (heap w) !! p = Some t → ∃ x, block_of x w = Some p.
Proof.
  intros [Hcount Hok] Hp. specialize (Hcount p).
  rewrite (rc_live p t) in Hcount by done.
  pose proof (ok_pos _ Hok p t Hp) as Hpos.
  assert (handles_on p (store w) ≠ ∅) as Hne.
  { intros Hempty. unfold refs in Hcount.
    rewrite Hempty, map_size_empty in Hcount. lia. }
  apply map_choose in Hne as (x & hx & Hx).
  apply map_lookup_filter_Some in Hx as [Hx Hhx]. simpl in Hhx.
  exists x. apply block_of_Some. eauto.
Qed.

(** X11: every block is accounted for.  In a world reached by a program,
    every address handed out so far is either that of a block that is
    there, was never deleted and has a live handle on it, or that of a
    block that was deleted and that no handle points to; no address beyond
    those is in use.  So nothing leaks: when no live handle has a block,
    the heap holds no block. *)
Theorem every_block_accounted prog w :
  run prog empty_world = Some w →
  (∀ p, (p < next (heap w))%positive →
     (∃ t x, cells (heap w) !! p = Some t ∧ block_of x w = Some p ∧
             p ∉ freed (heap w)) ∨
     (cells (heap w) !! p = None ∧ p ∈ freed (heap w) ∧
      ∀ x, block_of x w ≠ Some p)) ∧
  (∀ p, (next (heap w) ≤ p)%positive →
     cells (heap w) !! p = None ∧ (p ∉ freed (heap w)) ∧
     ∀ x, block_of x w ≠ Some p) ∧
  ((∀ x, block_of x w = None) → cells (heap w) = ∅).
Proof.
  intros Hrun. pose proof (reachable_wf _ _ Hrun) as Hwf.
  pose proof (run_accounted _ _ _ empty_world_wf empty_heap_accounted Hrun)
    as Hacc.
  assert (∀ p, cells (heap w) !! p = None → ∀ x, block_of x w ≠ Some p)
    as Hnone.
  { intros p Hp x (hx & Hx & Hhx)%block_of_Some.
    destruct (wf_live w x hx p Hwf Hx Hhx) as (t & Hc & _). congruence. }
  split; [|split].
  - intros p Hlt. destruct (proj1 (Hacc p) Hlt) as [[t Hp]|Hfreed].
    + left. destruct (live_block_has_handle w p t Hwf Hp) as [x Hx].
      exists t, x. split; [done|]. split; [done|].
      intros Hin. destruct (ok_freed _ (proj2 Hwf) p Hin). congruence.
    + right. destruct (ok_freed _ (proj2 Hwf) p Hfreed) as [Hp _].
      split; [done|]. split; [done|]. by apply Hnone.
  - intros p Hge. destruct (proj2 (Hacc p) Hge) as [Hp Hnot].
    split; [done|]. split; [done|]. by apply Hnone.
  - intros Hnull. apply map_empty. intros p.
    destruct (cells (heap w) !! p) as [t|] eqn:Hp; [|done].
    destruct (live_block_has_handle w p t Hwf Hp) as [x Hx].
    by rewrite Hnull in Hx.
Qed.

(** X12: only table operations change a table.  In a world reached by a
    program, a statement that is not a table operation (a construction, an
    assignment, a destruction, [Copy], [Zeros], a write to the header
    fields) leaves every block either deleted or with the table it had;
    and every object that is still on the block it was on sees the table
    it saw. *)
Theorem handle_operations_keep_tables prog w s w' :
  run prog empty_world = Some w → exec s w = Some w' →
  is_table_op s = false →
  tables_kept (heap w) (heap w') ∧
  (∀ z h h', store w !! z = Some h → store w' !! z = Some h' →
     tensors_ h' = tensors_ h → table_of z w' = table_of z w).
Proof.
  intros Hrun Hexec Hop. pose proof (reachable_wf _ _ Hrun) as Hwf.
  pose proof (exec_wf _ _ _ Hwf Hexec) as Hwf'.
  pose proof (exec_heap_steps _ _ _ Hwf Hexec) as Hsteps.
  rewrite Hop in Hsteps.
  pose proof (heap_steps_tables_kept _ _ Hsteps (proj2 Hwf)) as Hkept.
  split; [done|]. intros z h h' Hz Hz' Hsame.
  destruct (tensors_ h) as [p|] eqn:Hp.
  - destruct (wf_live w z h p Hwf Hz Hp) as (t & Hc & _).
    destruct (wf_live w' z h' p Hwf' Hz' Hsame) as (t' & Hc' & _).
    rewrite (table_of_eq z w h p t), (table_of_eq z w' h' p t') by done.
    destruct (Hkept p t Hc) as [Hgone|[c Hthere]]; [congruence|].
    rewrite Hthere in Hc'. by simplify_eq.
  - unfold table_of. rewrite Hz, Hz'. simpl. unfold tensors.
    by rewrite Hsame, Hp.
Qed.

(** ** Zeros and Copy composed; assignment repeated *)

Lemma Zeros_spec x y w hy p t :
  wf w → store w !! x = None → store w !! y = Some hy →
  tensors_ hy = Some p → cells (heap w) !! p = Some t →
  exec (SZeros x y) w =
    Some (mkWorld
            (<[x := mkTensorMap (element_shape hy) (element_dtype hy)
                      (max_num_elements hy) (Some (next (heap w)))]> (store w))
            (mkHeap (<[next (heap w) :=
                         mkTensors 1 ((λ _, Tensor_zero) <$> values_ t)]>
                       (cells (heap w)))
               (Pos.succ (next (heap w))) (freed (heap w)))).
Proof.
  intros Hwf Hx Hy Hp Hc. simpl. rewrite Hy. simpl.
  rewrite (Zeros_eq _ _ p t) by (done || apply Hwf). simpl.
  by rewrite declare_fresh.
Qed.

Lemma Copy_spec x y w hy p t :
  wf w → store w !! x = None → store w !! y = Some hy →
  tensors_ hy = Some p → cells (heap w) !! p = Some t →
  exec (SCopy x y) w =
    Some (mkWorld
            (<[x := mkTensorMap (element_shape hy) (element_dtype hy)
                      (max_num_elements hy) (Some (next (heap w)))]> (store w))
            (mkHeap (<[next (heap w) := mkTensors 1 (values_ t)]>
                       (cells (heap w)))
               (Pos.succ (next (heap w))) (freed (heap w)))).
Proof.
  intros Hwf Hx Hy Hp Hc. simpl. rewrite Hy. simpl.
  rewrite (Copy_eq _ _ p t) by (done || apply Hwf). simpl.
  by rewrite declare_fresh.
Qed.

(** X13: [Zeros] depends on the keys only.  In a world reached by a
    program, let [a] be on a block holding [t].  The [Zeros] of a [Zeros]
    of [a] has the table of the [Zeros] of [a], and the [Zeros] of a [Copy]
    of [a] has it too: the keys of [a], each with [Tensor(0)]. *)
Theorem Zeros_of_Zeros_and_Copy prog w a b c ha p t :
  run prog empty_world = Some w →
  store w !! a = Some ha → tensors_ ha = Some p →
  cells (heap w) !! p = Some t →
  store w !! b = None → store w !! c = None → b ≠ c →
  (∃ w2, run [SZeros b a; SZeros c b] w = Some w2 ∧
     table_of b w2 = Some ((λ _, Tensor_zero) <$> values_ t) ∧
     table_of c w2 = Some ((λ _, Tensor_zero) <$> values_ t) ∧
     table_of a w2 = Some (values_ t)) ∧
  (∃ w2, run [SCopy b a; SZeros c b] w = Some w2 ∧
     table_of b w2 = Some (values_ t) ∧
     table_of c w2 = Some ((λ _, Tensor_zero) <$> values_ t) ∧
     table_of a w2 = Some (values_ t)).
Proof.
  intros Hrun Ha Hp Hcp Hb Hc Hbc. pose proof (reachable_wf _ _ Hrun) as Hwf.
  assert (a ≠ b) as Hab by congruence. assert (a ≠ c) as Hac by congruence.
  pose proof (next_not_live _ (proj2 Hwf)) as Hfresh.
  assert (next (heap w) ≠ p) as Hne by congruence.
  assert (Pos.succ (next (heap w)) ≠ next (heap w)) as Hsucc by lia.
  assert (Pos.succ (next (heap w)) ≠ p) as Hsuccp.
  { intros <-. pose proof (ok_next _ (proj2 Hwf) _ (mk_is_Some _ _ Hcp)). lia. }
  assert (∀ (m1 : gmap Key Tensor) w1,
    w1 = mkWorld
           (<[b := mkTensorMap (element_shape ha) (element_dtype ha)
                     (max_num_elements ha) (Some (next (heap w)))]> (store w))
           (mkHeap (<[next (heap w) := mkTensors 1 m1]> (cells (heap w)))
              (Pos.succ (next (heap w))) (freed (heap w))) →
    wf w1 →
    ∃ w2, exec (SZeros c b) w1 = Some w2 ∧
      table_of b w2 = Some m1 ∧
      table_of c w2 = Some ((λ _, Tensor_zero) <$> m1) ∧
      table_of a w2 = Some (values_ t)) as Hsecond.
  { intros m1 w1 Hw1 Hwf1.
    set (hb := mkTensorMap (element_shape ha) (element_dtype ha)
                 (max_num_elements ha) (Some (next (heap w)))) in *.
    assert (store w1 !! b = Some hb) as Hb1
      by (subst w1; apply lookup_insert_eq).
    assert (cells (heap w1) !! next (heap w) = Some (mkTensors 1 m1)) as Hc1
      by (subst w1; apply lookup_insert_eq).
    assert (store w1 !! c = None) as Hcn
      by (subst w1; simpl; by rewrite lookup_insert_ne).
    rewrite (Zeros_spec c b w1 hb _ _ Hwf1 Hcn Hb1 eq_refl Hc1).
    eexists. split; [done|]. subst w1. simpl.
    split; [|split].
    - erewrite (table_of_eq b _ hb (next (heap w)));
        [|simpl; rewrite lookup_insert_ne by done; apply lookup_insert_eq
         |done
         |simpl; rewrite lookup_insert_ne by done; apply lookup_insert_eq].
      done.
    - erewrite (table_of_eq c _ _ (Pos.succ (next (heap w))));
        [|simpl; apply lookup_insert_eq|done|simpl; apply lookup_insert_eq].
      done.
    - erewrite (table_of_eq a _ ha p);
        [|simpl; by rewrite !lookup_insert_ne|done
         |simpl; rewrite !lookup_insert_ne by done; exact Hcp].
      done. }
  split.
  - pose proof (Zeros_spec b a w ha p t Hwf Hb Ha Hp Hcp) as Hexec.
    pose proof (exec_wf _ _ _ Hwf Hexec) as Hwf1.
    edestruct (Hsecond ((λ _, Tensor_zero) <$> values_ t))
      as (w2 & He & Htb & Htc & Hta); [reflexivity|exact Hwf1|].
    exists w2. rewrite run_cons, Hexec.
    cbn [mbind option_bind].
    rewrite run_cons, He. split; [done|]. rewrite Htb, Htc, Hta.
    split; [done|]. split; [|done]. f_equal.
    by rewrite <- map_fmap_compose.
  - pose proof (Copy_spec b a w ha p t Hwf Hb Ha Hp Hcp) as Hexec.
    pose proof (exec_wf _ _ _ Hwf Hexec) as Hwf1.
    edestruct (Hsecond (values_ t))
      as (w2 & He & Htb & Htc & Hta); [reflexivity|exact Hwf1|].
    exists w2. rewrite run_cons, Hexec.
    cbn [mbind option_bind].
    by rewrite run_cons, He.
Qed.

Lemma copy_assign_exec x y w this rhs :
  store w !! x = Some this → store w !! y = Some rhs → x ≠ y →
  exec (SCopyAssign x y) w =
    copy_assign this rhs (heap w) ≫=
      λ '(this', hp), Some (mkWorld (<[x := this']> (store w)) hp).
Proof.
  intros Hx Hy Hxy. simpl. rewrite Hx, Hy. simpl. by rewrite decide_False.
Qed.

(** X14: copy assignment is idempotent.  In a world reached by a program,
    once [b = a] has run, running [b = a] again changes nothing: not a
    handle, not a count, not a block. *)
Theorem copy_assign_idempotent prog w a b w1 :
  run prog empty_world = Some w →
  exec (SCopyAssign b a) w = Some w1 →
  exec (SCopyAssign b a) w1 = Some w1.
Proof.
  intros Hrun Hexec. pose proof (reachable_wf _ _ Hrun) as Hwf.
  pose proof (exec_wf _ _ _ Hwf Hexec) as Hwf1.
  simpl in Hexec.
  destruct (store w !! b) as [hb|] eqn:Hb; simpl in Hexec; [|done].
  destruct (store w !! a) as [ha|] eqn:Ha; simpl in Hexec; [|done].
  case_decide as Hba.
  { simplify_eq. simpl. rewrite Hb. simpl. by rewrite decide_True. }
  unfold copy_assign in Hexec.
  destruct (tensors_ hb) as [q|] eqn:Hq; simpl in Hexec; [|done].
  destruct (Unref q (heap w)) as [hp1|] eqn:Hunref; simpl in Hexec; [|done].
  destruct (tensors_ ha) as [p|] eqn:Hp; simpl in Hexec; [|done].
  destruct (Ref p hp1) as [hp2|] eqn:Href; simpl in Hexec; [|done].
  injection Hexec as <-.
  set (hb' := mkTensorMap (element_shape ha) (element_dtype ha)
                (max_num_elements ha) (Some p)) in *.
  set (w1 := mkWorld (<[b := hb']> (store w)) hp2) in *.
  assert (store w1 !! b = Some hb') as Hb1 by apply lookup_insert_eq.
  assert (store w1 !! a = Some ha) as Ha1 by (simpl; by rewrite lookup_insert_ne).
  destruct (wf_live w1 a ha p Hwf1 Ha1 Hp) as (t1 & Hc1 & _ & Hpos).
  pose proof (two_handles_count w1 b a hb' ha p t1 Hwf1 Hba Hb1 Ha1 eq_refl Hp Hc1)
    as Htwo.
  rewrite (copy_assign_exec b a w1 hb' ha Hb1 Ha1 Hba).
  unfold copy_assign. simpl. simpl in Hc1. rewrite (Unref_eq p t1) by done.
  rewrite decide_False by lia. simpl. rewrite Hp. simpl.
  rewrite (Ref_eq p (mkTensors (ref_ t1 - 1) (values_ t1)))
    by apply cells_set_cell_eq.
  simpl. do 2 f_equal.
  - by rewrite insert_insert_eq.
  - rewrite set_cell_set_cell.
    replace (ref_ t1 - 1 + 1)%Z with (ref_ t1) by lia.
    destruct t1; simpl. by apply set_cell_id.
Qed.

(** ** Moving out and back; operations on different keys *)

Lemma move_ctor_exec x y w rhs :
  store w !! y = Some rhs → store w !! x = None →
  exec (SMoveCtor x y) w =
    Some (mkWorld (<[x := (TensorMap_move rhs).1]>
                     (<[y := (TensorMap_move rhs).2]> (store w))) (heap w)).
Proof.
  intros Hy Hx. assert (y ≠ x) by congruence. simpl. rewrite Hy. simpl.
  unfold declare. simpl. by rewrite lookup_insert_ne, Hx.
Qed.

Lemma move_assign_exec x y w this rhs :
  store w !! x = Some this → store w !! y = Some rhs → x ≠ y →
  exec (SMoveAssign x y) w =
    Some (mkWorld (<[x := (move_assign this rhs).1]>
                     (<[y := (move_assign this rhs).2]> (store w))) (heap w)).
Proof.
  intros Hx Hy Hxy. simpl. rewrite Hx, Hy. simpl. by rewrite decide_False.
Qed.

(** X15: moving a handle out and back restores it.  Let [y] be a live
    object and [x] a new name.  After [TensorMap x(std::move(y));] and
    [y = std::move(x);] the heap is what it was, [y] is the handle it was,
    header fields and block, every other object but [x] is as it was, and
    [x] is left with the null pointer. *)
Theorem move_out_and_back w x y hy :
  store w !! y = Some hy → store w !! x = None →
  ∃ w', run [SMoveCtor x y; SMoveAssign y x] w = Some w' ∧
    heap w' = heap w ∧ store w' !! y = Some hy ∧
    block_of x w' = None ∧ header_of x w' = Some (header hy) ∧
    (∀ z, z ≠ x → store w' !! z = store w !! z).
Proof.
  intros Hy Hx. assert (x ≠ y) as Hxy by congruence.
  rewrite run_cons, (move_ctor_exec x y w hy Hy Hx). cbn [mbind option_bind].
  set (w1 := mkWorld _ _).
  assert (store w1 !! x = Some (TensorMap_move hy).1) as Hx1
    by apply lookup_insert_eq.
  assert (store w1 !! y = Some (TensorMap_move hy).2) as Hy1.
  { unfold w1. simpl. rewrite lookup_insert_ne by done. apply lookup_insert_eq. }
  rewrite run_cons, (move_assign_exec y x w1 _ _ Hy1 Hx1) by done.
  eexists. split; [done|]. simpl. split; [done|].
  unfold block_of, header_of. simpl.
  rewrite lookup_insert_eq. split; [by destruct hy|].
  rewrite lookup_insert_ne, lookup_insert_eq by done. simpl.
  split; [done|]. split; [done|]. intros z Hz.
  destruct (decide (z = y)) as [->|Hzy].
  - rewrite lookup_insert_eq, Hy. by destruct hy.
  - by rewrite !lookup_insert_ne.
Qed.

Lemma try_emplace_alter k v m :
  (try_emplace k v m).1 = partial_alter (λ o, Some (default v o)) k m.
Proof.
  apply map_eq. intros j. rewrite lookup_partial_alter. unfold try_emplace.
  destruct (m !! k) eqn:Hk; simpl; case_decide; subst; try done.
  - by rewrite lookup_insert_eq.
  - by rewrite lookup_insert_ne.
Qed.

Lemma subscript_alter k m :
  subscript k m = partial_alter (λ o, Some (default Tensor_default o)) k m.
Proof.
  apply map_eq. intros j. rewrite lookup_partial_alter. unfold subscript.
  destruct (m !! k) eqn:Hk; simpl; case_decide; subst; try done.
  - by rewrite lookup_insert_eq.
  - by rewrite lookup_insert_ne.
Qed.

Lemma map_erase_alter k m :
  (map_erase k m).1 = partial_alter (λ _, None) k m.
Proof.
  unfold map_erase. destruct (m !! k) eqn:Hk; simpl; [done|].
  apply map_eq. intros j. rewrite lookup_partial_alter.
  case_decide; by subst.
Qed.

(** A table operation, in one equation: the entry of its key changes in
    the block of its handle. *)
Lemma table_op_alter s x k w :
  table_op_on x s = true → stmt_key s = Some k →
  exec s w =
    this ← store w !! x;
    p ← tensors_ this;
    t ← cells (heap w) !! p;
    Some (mkWorld (store w)
            (set_cell p
               (mkTensors (ref_ t) (partial_alter (entry_change s) k (values_ t)))
               (heap w))).
Proof.
  intros Hop Hkey.
  destruct s; simpl in Hop; try done; apply bool_decide_eq_true in Hop;
    subst; simpl in Hkey; simplify_eq; simpl exec.
  all: destruct (store w !! x0) as [this|] eqn:Hx; simpl; [|done].
  all: destruct (tensors_ this) as [p|] eqn:Hthis; simpl;
    [destruct (cells (heap w) !! p) as [t|] eqn:Hp; simpl|].
  all: try solve [ first [ rewrite insert_undefined
                         | rewrite replace_undefined
                         | rewrite erase_undefined
                         | rewrite op_subscript_undefined ];
                   [done | apply tensors_undefined; eauto] ].
  - rewrite (insert_eq _ _ p t) by done. simpl.
    by rewrite try_emplace_alter.
  - by rewrite (replace_eq _ _ p t).
  - rewrite (erase_eq _ _ p t) by done. simpl. by rewrite map_erase_alter.
  - rewrite (op_subscript_eq _ _ p t) by done. simpl.
    by rewrite subscript_alter.
Qed.

(** X16: table operations on different keys commute.  Two table operations
    ([insert], [replace], [erase], [operator[]]) that name different keys,
    through the same handle, through two handles on one block or on two
    blocks, leave the same world whichever runs first, and are undefined in
    one order exactly when they are in the other. *)
Theorem table_ops_on_different_keys_commute s1 s2 x1 x2 k1 k2 w :
  table_op_on x1 s1 = true → table_op_on x2 s2 = true →
  stmt_key s1 = Some k1 → stmt_key s2 = Some k2 → k1 ≠ k2 →
  run [s1; s2] w = run [s2; s1] w.
Proof.
  intros Hop1 Hop2 Hk1 Hk2 Hne.
  assert (∀ s s' x x' k k' w0, table_op_on x s = true → table_op_on x' s' = true →
            stmt_key s = Some k → stmt_key s' = Some k' →
            run [s; s'] w0 =
              h ← store w0 !! x; p ← tensors_ h; t ← cells (heap w0) !! p;
              h' ← store w0 !! x'; p' ← tensors_ h';
              t' ← cells (set_cell p
                            (mkTensors (ref_ t)
                               (partial_alter (entry_change s) k (values_ t)))
                            (heap w0)) !! p';
              Some (mkWorld (store w0)
                      (set_cell p'
                         (mkTensors (ref_ t')
                            (partial_alter (entry_change s') k' (values_ t')))
                         (set_cell p
                            (mkTensors (ref_ t)
                               (partial_alter (entry_change s) k (values_ t)))
                            (heap w0))))) as Hrun.
  { intros s s' x x' k k' w0 Hs Hs' Hk Hk'.
    rewrite run_cons, (table_op_alter s x k w0 Hs Hk).
    destruct (store w0 !! x) as [h|]; simpl; [|done].
    destruct (tensors_ h) as [p|]; simpl; [|done].
    destruct (cells (heap w0) !! p) as [t|]; simpl; [|done].
    rewrite (table_op_alter s' x' k' _ Hs' Hk'). simpl.
    destruct (store w0 !! x') as [h'|]; simpl; [|done].
    destruct (tensors_ h') as [p'|]; simpl; [|done].
    by destruct (<[p:=_]> (cells (heap w0)) !! p'). }
  rewrite (Hrun s1 s2 x1 x2 k1 k2 w Hop1 Hop2 Hk1 Hk2).
  rewrite (Hrun s2 s1 x2 x1 k2 k1 w Hop2 Hop1 Hk2 Hk1).
  destruct (store w !! x1) as [h1|]; destruct (store w !! x2) as [h2|];
    simpl; try done.
  2: { destruct (tensors_ h1) as [p1|]; simpl; [|done].
       by destruct (cells (heap w) !! p1). }
  2: { destruct (tensors_ h2) as [p2|]; simpl; [|done].
       by destruct (cells (heap w) !! p2). }
  destruct (tensors_ h1) as [p1|]; destruct (tensors_ h2) as [p2|];
    simpl; try done.
  2: { by destruct (cells (heap w) !! p1). }
  2: { by destruct (cells (heap w) !! p2). }
  destruct (decide (p1 = p2)) as [->|Hp].
  - destruct (cells (heap w) !! p2) as [t|] eqn:Ht; simpl; [|done].
    rewrite !lookup_insert_eq. simpl. do 2 f_equal.
    rewrite !set_cell_set_cell. do 2 f_equal.
    by apply partial_alter_partial_alter_ne.
  - destruct (cells (heap w) !! p1) as [t1|] eqn:Ht1;
      destruct (cells (heap w) !! p2) as [t2|] eqn:Ht2; simpl; try done.
    + rewrite !lookup_insert_ne, Ht1, Ht2 by done. simpl. do 2 f_equal.
      unfold set_cell. simpl. f_equal. by apply insert_insert_ne.
    + by rewrite lookup_insert_ne, Ht2.
    + by rewrite lookup_insert_ne, Ht1.
Qed.

End Proofs.

(** * The model at work *)

Module Examples.
Import Toy.

Local Open Scope Z_scope.

(** Two insertions of the absent key 8 into the one-entry map. *)
Lemma insert_only_if_absent_witness :
  ∃ hp1 hp2,
    insert h1 8 (Scalar 5) one_entry = Some (true, hp1) ∧
    insert h1 8 (Scalar 6) hp1 = Some (false, hp2) ∧
    hp2 = hp1 ∧
    find h1 8 hp2 = Some (Some (Scalar 5)).
Proof.
  refine (proj2 (proj2 (insert_only_if_absent h1 one_entry
                          {[ 7 := Scalar 1 ]} 8 _)) _ (Scalar 5) (Scalar 6));
    vm_compute; reflexivity.
Defined.

(** Subscripting the one-entry map with the absent key 8. *)
Lemma subscript_inserts_default_witness :
  ∃ s hp',
    op_subscript h1 8 one_entry = Some (s, hp') ∧
    tensors h1 hp' = Some (<[8 := Empty]> {[ 7 := Scalar 1 ]}) ∧
    size_ h1 hp' = Some 2%nat ∧
    deref s hp' = Some Empty.
Proof.
  refine (proj1 (proj2 (subscript_inserts_default h1 one_entry
                          {[ 7 := Scalar 1 ]} 8 _)) _);
    vm_compute; reflexivity.
Defined.

(** C6: [keys()] does not return exactly the current keys.  On a map with
    the single entry [7 ↦ Scalar 1], whose size is 1, it returns two
    tensors: a default-constructed tensor, then the key. *)
Theorem keys_of_one_entry :
  size_ h1 one_entry = Some 1%nat ∧
  keys h1 one_entry = Some [Empty; Scalar 7].
Proof. split; vm_compute; reflexivity. Qed.

(** An insertion into a map of size 1 whose [max_num_elements] is 1. *)
Lemma max_num_elements_not_enforced_witness :
  ∃ hp',
    insert (with_max 1 h1) 8 (Scalar 5) one_entry = Some (true, hp') ∧
    size_ (with_max 1 h1) hp' = Some 2%nat ∧
    1 < Z.of_nat 2.
Proof.
  refine (proj2 (proj2 (proj2 (proj2 (proj2 (proj2 (proj2 (proj2
            (max_num_elements_not_enforced h1 one_entry 1))))))))
            {[ 7 := Scalar 1 ]} 8 (Scalar 5) _ _ _);
    vm_compute; try reflexivity.
  split; discriminate.
Defined.



(** [TensorMap b = a.Copy();] on the one-entry map. *)
Lemma Copy_is_isolated_witness :
  ∃ w' q, exec (SCopy "b" "a") w_a = Some w' ∧
    derived_copy w_a w' "a" "b" 1%positive q
      (mkTensors 1 {[ 7 := Scalar 1 ]}) {[ 7 := Scalar 1 ]}.
Proof.
  refine (Copy_is_isolated [SDecl "a"; SInsert "a" 7 (Scalar 1)] w_a "a" "b" _
            1%positive (mkTensors 1 {[ 7 := Scalar 1 ]}) _ _ _ _ _);
    vm_compute; reflexivity.
Defined.

(** [TensorMap b = a.Zeros();] on the one-entry map. *)
Lemma Zeros_same_keys_isolated_witness :
  ∃ w' q m0, exec (SZeros "b" "a") w_a = Some w' ∧
    derived_copy w_a w' "a" "b" 1%positive q
      (mkTensors 1 {[ 7 := Scalar 1 ]}) m0 ∧
    dom m0 = dom ({[ 7 := Scalar 1 ]} : gmap Z tensor) ∧
    (∀ k, m0 !! k = (λ _, Scalar 0) <$> ({[ 7 := Scalar 1 ]} : gmap Z tensor) !! k) ∧
    (∀ k v, m0 !! k = Some v → v = Scalar 0) ∧
    size m0 = size ({[ 7 := Scalar 1 ]} : gmap Z tensor).
Proof.
  refine (Zeros_same_keys_isolated [SDecl "a"; SInsert "a" 7 (Scalar 1)] w_a
            "a" "b" _ 1%positive (mkTensors 1 {[ 7 := Scalar 1 ]}) _ _ _ _ _);
    vm_compute; reflexivity.
Defined.

(** Two handles on one block: neither is the only reference, and
    destroying one takes the count from 2 to 1 without deleting the block. *)
Lemma refcount_accounting_witness :
  (∃ r, RefCountIsOne_of "a" w_ab = Some r ∧
        (r = true ↔ ∀ y, block_of y w_ab = Some 1%positive → y = "a")) ∧
  (∃ w', exec (SDestroy "b") w_ab = Some w' ∧
     store w' = delete "b" (store w_ab) ∧
     if decide (2 - 1 = 0)
     then cells (heap w') !! 1%positive = None ∧
          freed (heap w') = 1%positive :: freed (heap w_ab)
     else (∃ t', cells (heap w') !! 1%positive = Some t' ∧ ref_ t' = 2 - 1) ∧
          freed (heap w') = freed (heap w_ab)).
Proof.
  pose proof (refcount_accounting [SDecl "a"; SCopyCtor "b" "a"] w_ab)
    as Hacc.
  split.
  - refine (proj1 (proj2 (proj2 (proj2 (proj2 (proj2 (proj2 (proj2 (proj2
              (proj2 (Hacc _)))))))))) "a" 1%positive _);
      vm_compute; reflexivity.
  - refine (proj1 (proj2 (proj2 (Hacc _))) "b" 1%positive 2 _ _);
      vm_compute; reflexivity.
Defined.

(** [a = std::move(b);] between two handles on blocks 1 and 2: the source
    [b] ends on block 1 and is usable.  The same assignment when [a] is
    moved-from: the source [b] ends with no block and is unusable, and its
    destruction leaves the heap as it is. *)
Lemma move_relocates_reference_witness :
  (∃ w', exec (SMoveAssign "a" "b") w_a_b = Some w' ∧ heap w' = heap w_a_b ∧
     block_of "a" w' = Some 2%positive ∧ block_of "b" w' = Some 1%positive ∧
     usable "b" w' ∧ ¬ unusable "b" w' ∧
     ∃ w'', run [SDestroy "b"; SDestroy "a"] w' = Some w'' ∧
            NoDup (freed (heap w''))) ∧
  (∃ w', exec (SMoveAssign "a" "b") w_moved = Some w' ∧
     heap w' = heap w_moved ∧
     block_of "a" w' = Some 1%positive ∧ block_of "b" w' = None ∧
     unusable "b" w' ∧
     exec (SDestroy "b") w' = Some (mkWorld (delete "b" (store w')) (heap w'))).
Proof.
  assert (run [SDecl "a"; SDecl "b"] empty_world = Some w_a_b) as Hrun1
    by (vm_compute; reflexivity).
  assert (run [SDecl "a"; SMoveCtor "b" "a"] empty_world = Some w_moved)
    as Hrun2 by (vm_compute; reflexivity).
  assert ("a" ≠ "b") as Hab by discriminate.
  split.
  - destruct (proj1 (proj2 (move_relocates_reference [SDecl "a"; SDecl "b"]
                              w_a_b "b"
                              (mkTensorMap None DT_INVALID (-1) (Some 2%positive))
                              Hrun1 eq_refl))
                "a" (mkTensorMap None DT_INVALID (-1) (Some 1%positive))
                Hab eq_refl)
      as (w' & Hexec & Hheap & _ & Ha & _ & Hb & _ & Hiff & _ & Hlive & Hboth).
    exists w'. split; [exact Hexec|]. split; [exact Hheap|].
    split; [exact Ha|]. split; [exact Hb|].
    split; [exact (proj1 (Hlive 1%positive eq_refl))|].
    split; [intros Hun; discriminate (proj1 Hiff Hun)|]. exact Hboth.
  - destruct (proj1 (proj2 (move_relocates_reference
                              [SDecl "a"; SMoveCtor "b" "a"] w_moved "b"
                              (mkTensorMap None DT_INVALID (-1) (Some 1%positive))
                              Hrun2 eq_refl))
                "a" (mkTensorMap None DT_INVALID (-1) None) Hab eq_refl)
      as (w' & Hexec & Hheap & _ & Ha & _ & Hb & _ & Hiff & Hnull & _).
    exists w'. split; [exact Hexec|]. split; [exact Hheap|].
    split; [exact Ha|]. split; [exact Hb|].
    split; [exact (proj2 Hiff eq_refl)|]. exact (Hnull eq_refl).
Defined.

(** After [a = std::move(b);] the source [b] is on the former block of [a],
    and an insertion through it is defined: the source of a move is not
    always unusable. *)
Lemma move_assign_source_usable :
  ¬ moved_from_always_unusable (Key := Z) (Tensor := tensor)
      (Shape := option (list Z)) (DType := dtype).
Proof.
  intros Hclaim.
  assert (unusable "b"
            (mkWorld
               {[ "a" := mkTensorMap None DT_INVALID (-1) (Some 2%positive);
                  "b" := mkTensorMap None DT_INVALID (-1) (Some 1%positive) ]}
               (heap w_a_b))) as Hunusable.
  { apply (Hclaim [SDecl "a"; SDecl "b"] w_a_b "a" "b");
      [vm_compute; reflexivity|discriminate|].
    right. vm_compute. reflexivity. }
  destruct Hunusable as [Hops _].
  specialize (Hops (SInsert "b" 7 (Scalar 1)) eq_refl).
  vm_compute in Hops. discriminate Hops.
Qed.

(** Encoding the one-entry map and decoding it into a handle on another
    block. *)
Lemma Decode_Encode_round_trip_witness :
  ∃ data dst' hp',
    Encode h1 two_blocks = Some data ∧
    data_count data = size ({[ 7 := Scalar 1 ]} : gmap Z tensor) ∧
    Decode key_of h2 data two_blocks = Some (Some (dst', hp')) ∧
    header dst' = header h1 ∧
    tensors dst' hp' = Some {[ 7 := Scalar 1 ]} ∧
    tensors_ dst' = tensors_ h2 ∧
    (∀ r, tensors_ h2 ≠ Some r → cells hp' !! r = cells two_blocks !! r).
Proof.
  refine (Decode_Encode_round_trip key_of h1 h2 two_blocks
            {[ 7 := Scalar 1 ]} _ _ _).
  - intros k. reflexivity.
  - vm_compute. reflexivity.
  - eexists. vm_compute. reflexivity.
Defined.

(** ** Further properties, run *)

(** Erasing the absent key 8 from the one-entry map. *)
Lemma erase_removes_entry_witness :
  erase h1 8 one_entry = Some (0%nat, one_entry).
Proof.
  refine (proj1 (erase_removes_entry h1 one_entry {[ 7 := Scalar 1 ]} 8 _) _);
    vm_compute; reflexivity.
Defined.

(** Replacing the value of key 7 twice. *)
Lemma replace_last_wins_witness :
  ∃ hp1 hp2,
    replace h1 7 (Scalar 2) one_entry = Some (true, hp1) ∧
    replace h1 7 (Scalar 3) hp1 = Some (true, hp2) ∧
    replace h1 7 (Scalar 3) one_entry = Some (true, hp2) ∧
    tensors h1 hp2 = Some (<[7 := Scalar 3]> {[ 7 := Scalar 1 ]}) ∧
    find h1 7 hp2 = Some (Some (Scalar 3)) ∧
    (∀ k', k' ≠ 7 → find h1 k' hp2 = find h1 k' one_entry) ∧
    size_ h1 hp2 =
      Some (if ({[ 7 := Scalar 1 ]} : gmap Z tensor) !! 7 is Some _
            then size ({[ 7 := Scalar 1 ]} : gmap Z tensor)
            else S (size ({[ 7 := Scalar 1 ]} : gmap Z tensor))).
Proof.
  refine (replace_last_wins h1 one_entry {[ 7 := Scalar 1 ]} 7
            (Scalar 2) (Scalar 3) _);
    vm_compute; reflexivity.
Defined.

(** Looking up the absent key 8 in the one-entry map. *)
Lemma lookup_agrees_with_find_witness :
  lookup h1 8 one_entry = None ↔ find h1 8 one_entry = Some None.
Proof.
  refine (proj1 (lookup_agrees_with_find h1 one_entry {[ 7 := Scalar 1 ]} 8 _));
    vm_compute; reflexivity.
Defined.

(** The keys of the one-entry map. *)
Lemma keys_defaults_then_keys_witness :
  ∃ ks, keys h1 one_entry = Some (replicate 1 Empty ++ ks) ∧ length ks = 1%nat.
Proof.
  destruct (keys_defaults_then_keys h1 one_entry {[ 7 := Scalar 1 ]})
    as (ks & Hkeys & _ & _ & Hlen & _).
  - vm_compute; reflexivity.
  - exists ks. split; [exact Hkeys|exact Hlen].
Defined.

(** Inserting the absent key 8 and erasing it again. *)
Lemma insert_erase_round_trip_witness :
  ∃ hp1, insert h1 8 (Scalar 5) one_entry = Some (true, hp1) ∧
         erase h1 8 hp1 = Some (1%nat, one_entry).
Proof.
  refine (proj1 (insert_erase_round_trip h1 one_entry {[ 7 := Scalar 1 ]} 8 _)
            _ (Scalar 5));
    vm_compute; reflexivity.
Defined.

(** [b = a;] where [b] is the only handle on block 2. *)
Lemma copy_assign_releases_previous_witness :
  ∃ w', exec (SCopyAssign "b" "a") w_a_b = Some w' ∧
    (if decide (ref_ (mkTensors 1 (∅ : gmap Z tensor)) = 1)
     then cells (heap w') !! 2%positive = None ∧
          freed (heap w') = 2%positive :: freed (heap w_a_b) ∧
          (∀ z, block_of z w' ≠ Some 2%positive)
     else cells (heap w') !! 2%positive
            = Some (mkTensors (ref_ (mkTensors 1 (∅ : gmap Z tensor)) - 1)
                      (values_ (mkTensors 1 (∅ : gmap Z tensor)))) ∧
          freed (heap w') = freed (heap w_a_b)) ∧
    (∀ r, r ≠ 1%positive → r ≠ 2%positive →
       cells (heap w') !! r = cells (heap w_a_b) !! r) ∧
    next (heap w') = next (heap w_a_b).
Proof.
  refine (copy_assign_releases_previous [SDecl "a"; SDecl "b"] w_a_b "a" "b"
            _ _ 1%positive 2%positive (mkTensors 1 ∅) _ _ _ _ _ _ _ _);
    vm_compute; (reflexivity || discriminate).
Defined.

(** Copy construction from the moved-from [a], the table operations
    through it, and [a = std::move(b);]. *)
Lemma moved_from_handle_uses_witness :
  exec (SCopyCtor "c" "a") w_moved = None ∧
  unusable "a" w_moved ∧
  no_use (mkTensorMap None DT_INVALID (-1) None) (heap w_moved) ∧
  ∃ w', exec (SMoveAssign "a" "b") w_moved = Some w' ∧
    heap w' = heap w_moved ∧
    header_of "a" w' = Some (None, DT_INVALID, -1) ∧
    block_of "a" w' = Some 1%positive ∧
    block_of "b" w' = None ∧
    (∀ z, z ≠ "a" → z ≠ "b" → store w' !! z = store w_moved !! z).
Proof.
  pose proof (moved_from_handle_uses w_moved "a"
                (mkTensorMap None DT_INVALID (-1) None) eq_refl eq_refl)
    as Huses.
  split; [exact (proj1 Huses "c")|].
  split; [exact (proj1 (proj2 (proj2 (proj2 (proj2 (proj2 Huses))))))|].
  split; [exact (proj1 (proj2 (proj2 (proj2 (proj2 (proj2 (proj2 Huses)))))))|].
  refine (proj2 (proj2 (proj2 (proj2 (proj2 (proj2 (proj2 (proj2
            (proj2 Huses))))))))
            "b" (mkTensorMap None DT_INVALID (-1) (Some 1%positive)) _ _);
    vm_compute; (reflexivity || discriminate).
Defined.

(** An insertion and an erasure through [a] while [b] shares its block. *)
Lemma table_ops_change_one_table_witness :
  ∃ w', run [SInsert "a" 8 (Scalar 5); SErase "a" 8] w_ab = Some w' ∧
    store w' = store w_ab ∧
    next (heap w') = next (heap w_ab) ∧ freed (heap w') = freed (heap w_ab) ∧
    (∀ r, r ≠ 1%positive → cells (heap w') !! r = cells (heap w_ab) !! r) ∧
    (∀ z, block_of z w' = block_of z w_ab ∧ header_of z w' = header_of z w_ab ∧
          count_of z w' = count_of z w_ab ∧
          RefCountIsOne_of z w' = RefCountIsOne_of z w_ab).
Proof.
  refine (table_ops_change_one_table [SInsert "a" 8 (Scalar 5); SErase "a" 8]
            "a" w_ab (mkTensorMap None DT_INVALID (-1) (Some 1%positive))
            1%positive (mkTensors 2 ∅) _ _ _ _).
  - repeat constructor.
  - vm_compute; reflexivity.
  - reflexivity.
  - vm_compute; reflexivity.
Defined.

(** [a] is the only handle of [w_a]; in [w_ab] it is not, and [b] sees what
    is inserted through [a]. *)
Lemma RefCountIsOne_guards_aliasing_witness :
  (∀ ops, table_ops_on "a" ops →
     ∃ w', run ops w_a = Some w' ∧
           ∀ z, z ≠ "a" → table_of z w' = table_of z w_a) ∧
  (∃ z, z ≠ "a" ∧ is_Some (block_of "a" w_ab) ∧
     block_of z w_ab = block_of "a" w_ab ∧
     ∀ m k v, table_of "a" w_ab = Some m → m !! k = None →
       ∃ w', exec (SInsert "a" k v) w_ab = Some w' ∧
             table_of z w_ab = Some m ∧
             table_of z w' = Some (<[k := v]> m)).
Proof.
  split.
  - refine (proj1 (RefCountIsOne_guards_aliasing
                     [SDecl "a"; SInsert "a" 7 (Scalar 1)] w_a "a" _) _);
      vm_compute; reflexivity.
  - refine (proj2 (RefCountIsOne_guards_aliasing
                     [SDecl "a"; SCopyCtor "b" "a"] w_ab "a" _) _);
      vm_compute; reflexivity.
Defined.

(** The handle [a] of [w_a] can be read and copied. *)
Lemma live_handles_never_dangle_witness :
  ∃ m, tensors h_a (heap w_a) = Some m ∧ is_Some (Copy h_a (heap w_a)).
Proof.
  destruct (live_handles_never_dangle [SDecl "a"; SInsert "a" 7 (Scalar 1)]
              w_a "a" h_a)
    as (m & Hm & _ & _ & _ & _ & _ & _ & _ & Hcopy & _).
  - vm_compute; reflexivity.
  - vm_compute; reflexivity.
  - eexists; reflexivity.
  - exists m. split; [exact Hm|exact Hcopy].
Defined.

(** In [w_assigned] block 1 is live and referenced, block 2 was deleted. *)
Lemma every_block_accounted_witness :
  (∀ p, (p < next (heap w_assigned))%positive →
     (∃ t x, cells (heap w_assigned) !! p = Some t ∧
             block_of x w_assigned = Some p ∧ p ∉ freed (heap w_assigned)) ∨
     (cells (heap w_assigned) !! p = None ∧ p ∈ freed (heap w_assigned) ∧
      ∀ x, block_of x w_assigned ≠ Some p)) ∧
  (∀ p, (next (heap w_assigned) ≤ p)%positive →
     cells (heap w_assigned) !! p = None ∧ (p ∉ freed (heap w_assigned)) ∧
     ∀ x, block_of x w_assigned ≠ Some p) ∧
  ((∀ x, block_of x w_assigned = None) → cells (heap w_assigned) = ∅).
Proof.
  refine (every_block_accounted
            [SDecl "a"; SDecl "b"; SCopyAssign "b" "a"] w_assigned _);
    vm_compute; reflexivity.
Defined.

(** [b = a;] deletes block 2 and changes no table that is still seen. *)
Lemma handle_operations_keep_tables_witness :
  tables_kept (heap w_a_b) (heap w_assigned) ∧
  (∀ z h h', store w_a_b !! z = Some h → store w_assigned !! z = Some h' →
     tensors_ h' = tensors_ h → table_of z w_assigned = table_of z w_a_b).
Proof.
  refine (handle_operations_keep_tables [SDecl "a"; SDecl "b"] w_a_b
            (SCopyAssign "b" "a") w_assigned _ _ _);
    vm_compute; reflexivity.
Defined.

(** [Zeros] of [Zeros] and [Zeros] of [Copy] of the one-entry map. *)
Lemma Zeros_of_Zeros_and_Copy_witness :
  (∃ w2, run [SZeros "b" "a"; SZeros "c" "b"] w_a = Some w2 ∧
     table_of "b" w2 = Some ((λ _, Scalar 0) <$> {[ 7 := Scalar 1 ]}) ∧
     table_of "c" w2 = Some ((λ _, Scalar 0) <$> {[ 7 := Scalar 1 ]}) ∧
     table_of "a" w2 = Some {[ 7 := Scalar 1 ]}) ∧
  (∃ w2, run [SCopy "b" "a"; SZeros "c" "b"] w_a = Some w2 ∧
     table_of "b" w2 = Some {[ 7 := Scalar 1 ]} ∧
     table_of "c" w2 = Some ((λ _, Scalar 0) <$> {[ 7 := Scalar 1 ]}) ∧
     table_of "a" w2 = Some {[ 7 := Scalar 1 ]}).
Proof.
  refine (Zeros_of_Zeros_and_Copy [SDecl "a"; SInsert "a" 7 (Scalar 1)] w_a
            "a" "b" "c" (mkTensorMap None DT_INVALID (-1) (Some 1%positive))
            1%positive (mkTensors 1 {[ 7 := Scalar 1 ]}) _ _ _ _ _ _ _);
    vm_compute; (reflexivity || discriminate).
Defined.

(** [b = a;] a second time. *)
Lemma copy_assign_idempotent_witness :
  exec (SCopyAssign "b" "a") w_assigned = Some w_assigned.
Proof.
  refine (copy_assign_idempotent [SDecl "a"; SDecl "b"] w_a_b "a" "b"
            w_assigned _ _);
    vm_compute; reflexivity.
Defined.

(** [TensorMap b(std::move(a)); a = std::move(b);] on the one-entry map. *)
Lemma move_out_and_back_witness :
  ∃ w', run [SMoveCtor "b" "a"; SMoveAssign "a" "b"] w_a = Some w' ∧
    heap w' = heap w_a ∧
    store w' !! "a"
      = Some (mkTensorMap None DT_INVALID (-1) (Some 1%positive)) ∧
    block_of "b" w' = None ∧
    header_of "b" w' = Some (None, DT_INVALID, -1) ∧
    (∀ z, z ≠ "b" → store w' !! z = store w_a !! z).
Proof.
  refine (move_out_and_back w_a "b" "a"
            (mkTensorMap None DT_INVALID (-1) (Some 1%positive)) _ _);
    vm_compute; reflexivity.
Defined.

(** An insertion of key 8 through [a] and an erasure of key 7 through [b],
    two handles on one block. *)
Lemma table_ops_on_different_keys_commute_witness :
  run [SInsert "a" 8 (Scalar 5); SErase "b" 7] w_ab
  = run [SErase "b" 7; SInsert "a" 8 (Scalar 5)] w_ab.
Proof.
  refine (table_ops_on_different_keys_commute
            (SInsert "a" 8 (Scalar 5)) (SErase "b" 7) "a" "b" 8 7 w_ab
            _ _ _ _ _);
    vm_compute; (reflexivity || discriminate).
Defined.

End Examples.
